(** * Version edits of the LSM-tree store: [yb/rocksdb/db/version_edit.h]

    A shallow embedding of [FileDescriptor], [FileMetaData] and [VersionEdit]
    as they are written in the header, followed by the properties of the
    identity packing, of the mutators and their assertions, of the boundary
    tracker and of the encode/decode contract.

    Conventions.  A [uintN_t] or [intN_t] value is a [Z]; arithmetic that can
    leave the range is written with its wrap-around ([wrap64], [wrap32]).  A
    raw pointer is [option N] with [nullptr = None].  A [std::string] holding a
    name is a [string]; key bytes are a [list byte].  A [std::set] is a
    [gset], a [std::vector] a [list].  A member function whose body starts
    with [assert]s returns an [asserted] result: either the updated object or
    the abort of the failed assertion. *)

From Stdlib Require Import ZArith NArith Lia List Bool.
From Stdlib Require Import Strings.String Strings.Byte Sorting.Sorted.
From stdpp Require Import gmap.
Import ListNotations.
Local Open Scope Z_scope.

(* ================================================================== *)
(** * Machine integers and pointers *)

Definition wrap64 (z : Z) : Z := z mod 2 ^ 64.
Definition wrap32 (z : Z) : Z := z mod 2 ^ 32.

(** Conversion of a [uint64_t] to [int64_t] (two's complement). *)
Definition to_int64 (z : Z) : Z := (z + 2 ^ 63) mod 2 ^ 64 - 2 ^ 63.

Definition is_uint64 (z : Z) : Prop := 0 <= z < 2 ^ 64.
Definition is_uint32 (z : Z) : Prop := 0 <= z < 2 ^ 32.

(** The conversion of a [boost::optional] to [bool]. *)
Definition has_value {A : Type} (o : option A) : bool :=
  match o with Some _ => true | None => false end.

(** [T*]: the null pointer or an address. *)
Definition pointer : Type := option N.
Definition nullptr : pointer := None.

(* ================================================================== *)
(** * FileDescriptor *)

(** [const uint64_t kFileNumberMask = 0x3FFFFFFFFFFFFFFF;] *)
Definition kFileNumberMask : Z := 0x3FFFFFFFFFFFFFFF.

(** Modelled from the spec: [PackFileNumberAndPathId] is declared [extern] in
    the header and its body is not part of it.  The spec (data model,
    FileIdentity) combines the two "into a single 64-bit integer using pathId
    as a high-order multiplier of (mask + 1) over the low 62 bits holding
    fileNumber", and notes that out-of-range arguments are truncated
    silently; the arithmetic is [uint64_t] arithmetic. *)
Definition PackFileNumberAndPathId (number path_id : Z) : Z :=
  wrap64 (wrap64 (path_id * wrap64 (kFileNumberMask + 1)) + number).

Record FileDescriptor : Type := mkFileDescriptor {
  table_reader : pointer;
  packed_number_and_path_id : Z;
  total_file_size : Z;
  base_file_size : Z
}.

(** [FileDescriptor(number, path_id, _total_file_size, _base_file_size)];
    [path_id] is a [uint32_t] widened to the [uint64_t] parameter of the
    packing function. *)
Definition FileDescriptor_of (number path_id total base : Z) : FileDescriptor :=
  {| table_reader := nullptr;
     packed_number_and_path_id := PackFileNumberAndPathId number path_id;
     total_file_size := total;
     base_file_size := base |}.

(** [FileDescriptor() : FileDescriptor(0, 0, 0, 0)] *)
Definition FileDescriptor_default : FileDescriptor := FileDescriptor_of 0 0 0 0.

(** [packed_number_and_path_id & kFileNumberMask] *)
Definition GetNumber (fd : FileDescriptor) : Z :=
  Z.land (packed_number_and_path_id fd) kFileNumberMask.

(** [static_cast<uint32_t>(packed_number_and_path_id / (kFileNumberMask + 1))] *)
Definition GetPathId (fd : FileDescriptor) : Z :=
  wrap32 (packed_number_and_path_id fd / wrap64 (kFileNumberMask + 1)).

Definition GetTotalFileSize (fd : FileDescriptor) : Z := total_file_size fd.
Definition GetBaseFileSize (fd : FileDescriptor) : Z := base_file_size fd.


(* ================================================================== *)
(** * Assertions *)

(** Result of a member function guarded by [assert]: the object after the
    call, or the abort raised by the first assertion that does not hold. *)
Inductive asserted (A : Type) : Type :=
| Done (a : A)
| AssertionFailed.
Arguments Done {A} a.
Arguments AssertionFailed {A}.

#[global] Instance asserted_ret : MRet asserted := fun A a => Done a.
#[global] Instance asserted_bind : MBind asserted := fun A B k m =>
  match m with
  | Done a => k a
  | AssertionFailed => AssertionFailed
  end.

(** [assert(cond);] followed by the rest of the body: [assert cond ;; rest].
    The macro is taken as compiled in (no [NDEBUG]): a false condition aborts
    the call. *)
Definition assert (cond : bool) : asserted unit :=
  if cond then Done tt else AssertionFailed.

(** The result of [DecodeFrom]: the decoded record, or the corruption
    status, which carries no record. *)
Inductive Result (A : Type) : Type :=
| Decoded (a : A)
| Corruption.
Arguments Decoded {A} a.
Arguments Corruption {A}.

(* ================================================================== *)
(** * Boundary values, op ids, file metadata *)

(** Modelled from the spec: [OpId] is declared outside this header.  It is
    "a (term, index)-style marker of replicated-log progress"; the header
    builds one from two [int64_t] ([SetFlushedOpId], [AddTestFile]). *)
Record OpId : Type := mkOpId {
  term : Z;
  index : Z
}.

(** Modelled from the spec: the default [OpId()] is declared outside this
    header; default construction gives the zero position. *)
Definition OpId_default : OpId := mkOpId 0 0.

(** [InternalKey] (dbformat.h): the bytes of an internal key; the
    default-constructed key is empty. *)
Definition InternalKey : Type := list byte.

Definition SequenceNumber : Type := Z.

(* ================================================================== *)
(** * The persisted message and its wire form *)

(** Modelled from the spec: the header only forward-declares
    [class VersionEditPB] and declares [EncodeTo] (into a [VersionEditPB]),
    [AppendEncodedTo] and [DecodeFrom]; the message and the functions are
    defined elsewhere.  The spec (external interfaces) describes the persisted
    format as "a structured message per edit" and lists its fields, which the
    records below follow one by one; it calls the format "conceptual, not
    bit-exact to any specific wire library".  The byte layout chosen here is
    the usual one of such libraries: base-128 varints for numbers (zigzag for
    signed ones), a length prefix before byte strings, a presence byte before
    an optional field and a count before a repeated field.  A message must
    fill its input exactly. *)
Module Wire.

Record codec (A : Type) : Type := mkCodec {
  enc : A -> list byte;
  dec : list byte -> option (A * list byte)
}.
Arguments mkCodec {A} enc dec.
Arguments enc {A} c x.
Arguments dec {A} c input.

Definition byte_of_N (n : N) : byte :=
  match Byte.of_N n with Some b => b | None => x00 end.

(** Least significant group first; the high bit of a byte says that another
    group follows. *)
Fixpoint enc_varint_groups (groups : nat) (n : N) : list byte :=
  match groups with
  | O => []
  | S groups' =>
      if (n <? 128)%N then [byte_of_N n]
      else byte_of_N (128 + n mod 128) :: enc_varint_groups groups' (n / 128)
  end.

Definition enc_varint (n : N) : list byte :=
  enc_varint_groups (S (N.to_nat (N.log2 n))) n.

Fixpoint dec_varint (input : list byte) : option (N * list byte) :=
  match input with
  | [] => None
  | b :: rest =>
      let v := Byte.to_N b in
      if (v <? 128)%N then Some (v, rest)
      else match dec_varint rest with
           | Some (hi, rest') => Some ((v - 128) + 128 * hi, rest')%N
           | None => None
           end
  end.

Definition varint : codec N := mkCodec enc_varint dec_varint.

(** A codec read through a pair of conversions. *)
Definition conv {A B : Type} (to : A -> B) (from : B -> A) (c : codec B) : codec A :=
  mkCodec (fun a => enc c (to a))
          (fun input => match dec c input with
                        | Some (b, rest) => Some (from b, rest)
                        | None => None
                        end).

Definition zigzag (z : Z) : N :=
  if z <? 0 then Z.to_N (- 2 * z - 1) else Z.to_N (2 * z).

Definition unzigzag (n : N) : Z :=
  if N.even n then Z.of_N (n / 2) else - Z.of_N (n / 2) - 1.

Definition sint : codec Z := conv zigzag unzigzag varint.

Definition flag : codec bool :=
  mkCodec (fun b : bool => if b then [x01] else [x00])
          (fun input => match input with
                        | x00 :: rest => Some (false, rest)
                        | x01 :: rest => Some (true, rest)
                        | _ => None
                        end).

Definition blob : codec (list byte) :=
  mkCodec (fun bs => enc_varint (N.of_nat (length bs)) ++ bs)
          (fun input =>
             match dec_varint input with
             | Some (n, rest) =>
                 if (n <=? N.of_nat (length rest))%N
                 then Some (firstn (N.to_nat n) rest, skipn (N.to_nat n) rest)
                 else None
             | None => None
             end).

Definition text : codec string :=
  conv list_byte_of_string string_of_list_byte blob.

Definition couple {A B : Type} (ca : codec A) (cb : codec B) : codec (A * B) :=
  mkCodec (fun ab => enc ca (fst ab) ++ enc cb (snd ab))
          (fun input =>
             match dec ca input with
             | Some (a, rest) =>
                 match dec cb rest with
                 | Some (b, rest') => Some ((a, b), rest')
                 | None => None
                 end
             | None => None
             end).

Definition optional {A : Type} (c : codec A) : codec (option A) :=
  mkCodec (fun o => match o with
                    | Some a => x01 :: enc c a
                    | None => [x00]
                    end)
          (fun input =>
             match input with
             | x00 :: rest => Some (None, rest)
             | x01 :: rest =>
                 match dec c rest with
                 | Some (a, rest') => Some (Some a, rest')
                 | None => None
                 end
             | _ => None
             end).

Fixpoint dec_items {A : Type} (c : codec A) (count : nat) (input : list byte)
  : option (list A * list byte) :=
  match count with
  | O => Some ([], input)
  | S count' =>
      match dec c input with
      | Some (a, rest) =>
          match dec_items c count' rest with
          | Some (l, rest') => Some (a :: l, rest')
          | None => None
          end
      | None => None
      end
  end.

Definition repeated {A : Type} (c : codec A) : codec (list A) :=
  mkCodec (fun l => enc_varint (N.of_nat (length l)) ++ concat (map (enc c) l))
          (fun input =>
             match dec_varint input with
             | Some (n, rest) => dec_items c (N.to_nat n) rest
             | None => None
             end).

(** A whole message: the decoder must consume the input exactly. *)
Definition parse {A : Type} (c : codec A) (input : list byte) : option A :=
  match dec c input with
  | Some (a, []) => Some a
  | _ => None
  end.

End Wire.

(** Modelled from the spec: the "(term, index) pair" of an op position. *)
Record OpIdPB : Type := mkOpIdPB {
  pb_term : Z;
  pb_index : Z
}.

(** Modelled from the spec: a boundary is persisted as "key bytes +
    auxiliary ordering value + sequence number"; the auxiliary value travels
    in its serialized form. *)
Record BoundaryValuesPB : Type := mkBoundaryValuesPB {
  pb_key : list byte;
  pb_user_values : list byte;
  pb_seqno : N
}.

(** Modelled from the spec: a file-addition entry carries "level, packed
    file identity, total/base size, smallest/largest boundary, last durable op
    position, imported flag, compensated size, and content stats", and the
    marked-for-compaction hint.  The boundaries are sub-messages and may be
    missing on the wire; numbers on the wire are not bounded. *)
Record NewFilePB : Type := mkNewFilePB {
  pb_level : Z;
  pb_packed_number_and_path_id : N;
  pb_total_file_size : N;
  pb_base_file_size : N;
  pb_smallest : option BoundaryValuesPB;
  pb_largest : option BoundaryValuesPB;
  pb_last_op_id : OpIdPB;
  pb_imported : bool;
  pb_compensated_file_size : N;
  pb_num_entries : N;
  pb_num_deletions : N;
  pb_raw_key_size : N;
  pb_raw_value_size : N;
  pb_init_stats_from_file : bool;
  pb_marked_for_compaction : bool
}.

(** Modelled from the spec: a file-deletion entry, "(level, file number)". *)
Record DeletedFilePB : Type := mkDeletedFilePB {
  pb_deleted_level : Z;
  pb_file_number : N
}.

(** Modelled from the spec: the message of one edit, with "as independently
    optional fields, comparator name, log number, previous log number,
    next-file-number, max-column-family, last-sequence, and an always-present
    durability watermark", the "ordered list of file-addition entries", the
    "unordered list of file-deletion entries" and the "column-family fields
    (target id, optional created-name, drop flag)". *)
Record VersionEditPB : Type := mkVersionEditPB {
  pb_comparator : option string;
  pb_log_number : option N;
  pb_prev_log_number : option N;
  pb_next_file_number : option N;
  pb_max_column_family : option N;
  pb_last_sequence : option N;
  pb_flushed_op_id : OpIdPB;
  pb_new_files : list NewFilePB;
  pb_deleted_files : list DeletedFilePB;
  pb_column_family : N;
  pb_column_family_name : option string;
  pb_is_column_family_drop : bool
}.

(** Modelled from the spec: the wire form of the messages above, field by
    field in the order of the records. *)
Module MessageCodec.
Import Wire.

Definition op_id : codec OpIdPB :=
  conv (fun o => (pb_term o, pb_index o))
       (fun p => mkOpIdPB (fst p) (snd p))
       (couple sint sint).

Definition boundary : codec BoundaryValuesPB :=
  conv (fun b => (pb_key b, (pb_user_values b, pb_seqno b)))
       (fun p => mkBoundaryValuesPB (fst p) (fst (snd p)) (snd (snd p)))
       (couple blob (couple blob varint)).

Definition new_file_tuple : Type :=
  Z * (N * (N * (N * (option BoundaryValuesPB * (option BoundaryValuesPB *
  (OpIdPB * (bool * (N * (N * (N * (N * (N * (bool * bool))))))))))))).

Definition new_file_to_tuple (f : NewFilePB) : new_file_tuple :=
  (pb_level f, (pb_packed_number_and_path_id f, (pb_total_file_size f,
  (pb_base_file_size f, (pb_smallest f, (pb_largest f, (pb_last_op_id f,
  (pb_imported f, (pb_compensated_file_size f, (pb_num_entries f,
  (pb_num_deletions f, (pb_raw_key_size f, (pb_raw_value_size f,
  (pb_init_stats_from_file f, pb_marked_for_compaction f)))))))))))))).

Definition new_file_of_tuple (t : new_file_tuple) : NewFilePB :=
  let '(level, (packed, (total, (basesz, (lo, (hi, (op, (imp, (comp, (entries,
       (deletions, (ksize, (vsize, (init, marked)))))))))))))) := t in
  mkNewFilePB level packed total basesz lo hi op imp comp entries deletions
    ksize vsize init marked.

Definition new_file : codec NewFilePB :=
  conv new_file_to_tuple new_file_of_tuple
    (couple sint (couple varint (couple varint (couple varint
    (couple (optional boundary) (couple (optional boundary) (couple op_id
    (couple flag (couple varint (couple varint (couple varint (couple varint
    (couple varint (couple flag flag)))))))))))))).

Definition deleted_file : codec DeletedFilePB :=
  conv (fun d => (pb_deleted_level d, pb_file_number d))
       (fun p => mkDeletedFilePB (fst p) (snd p))
       (couple sint varint).

Definition version_edit_tuple : Type :=
  option string * (option N * (option N * (option N * (option N * (option N *
  (OpIdPB * (list NewFilePB * (list DeletedFilePB * (N * (option string * bool)))))))))).

Definition version_edit_to_tuple (m : VersionEditPB) : version_edit_tuple :=
  (pb_comparator m, (pb_log_number m, (pb_prev_log_number m,
  (pb_next_file_number m, (pb_max_column_family m, (pb_last_sequence m,
  (pb_flushed_op_id m, (pb_new_files m, (pb_deleted_files m,
  (pb_column_family m, (pb_column_family_name m, pb_is_column_family_drop m))))))))))).

Definition version_edit_of_tuple (t : version_edit_tuple) : VersionEditPB :=
  let '(cmp, (lognum, (prevlog, (nextfile, (maxcf, (lastseq, (flushed, (added,
       (deleted, (cf, (cfname, drop))))))))))) := t in
  mkVersionEditPB cmp lognum prevlog nextfile maxcf lastseq flushed added deleted
    cf cfname drop.

Definition version_edit : codec VersionEditPB :=
  conv version_edit_to_tuple version_edit_of_tuple
    (couple (optional text) (couple (optional varint) (couple (optional varint)
    (couple (optional varint) (couple (optional varint) (couple (optional varint)
    (couple op_id (couple (repeated new_file) (couple (repeated deleted_file)
    (couple varint (couple (optional text) flag))))))))))).

(** [SerializeToString] and [ParseFromArray] of the message. *)
Definition SerializeToString (m : VersionEditPB) : list byte := enc version_edit m.
Definition ParseFromArray (input : list byte) : option VersionEditPB :=
  parse version_edit input.

End MessageCodec.

Section Model.

(** The auxiliary ordering values carried by a boundary next to its key and
    sequence number.  Their type is declared in dbformat.h and is opaque to
    this header. *)
Variable Aux : Type.

(** Modelled from the spec: [FileBoundaryValuesBase] is declared in
    dbformat.h.  A boundary carries a sequence number (the header reads
    [seqno]) and "an extracted auxiliary ordering/progress value". *)
Record FileBoundaryValuesBase : Type := mkBoundaryBase {
  seqno : SequenceNumber;
  aux : Aux
}.

(** Modelled from the spec: [FileBoundaryValues<InternalKey>], declared in
    dbformat.h, is the base extended with the key of the boundary. *)
Record BoundaryValues : Type := mkBoundary {
  key : InternalKey;
  base :> FileBoundaryValuesBase
}.

Record FileMetaData : Type := mkFileMetaData {
  refs : Z;
  fd : FileDescriptor;
  being_compacted : bool;
  smallest : BoundaryValues;
  largest : BoundaryValues;
  last_op_id : OpId;
  imported : bool;
  table_reader_handle : pointer;
  compensated_file_size : Z;
  num_entries : Z;
  num_deletions : Z;
  raw_key_size : Z;
  raw_value_size : Z;
  init_stats_from_file : bool;
  marked_for_compaction : bool
}.

(** The default-constructed [FileBoundaryValues<InternalKey>], declared in
    dbformat.h: a parameter of the model.  Its key is the empty key. *)
Variable BoundaryValues_default : BoundaryValues.

(** Modelled from the spec: [FileMetaData::FileMetaData()] is declared in the
    header and defined elsewhere.  "Construction default-initializes all
    counters to zero/false"; the reader handle is absent; [imported] has the
    in-class initializer [false]; [fd], [smallest], [largest] and
    [last_op_id] are default-constructed members. *)
Definition FileMetaData_default : FileMetaData :=
  {| refs := 0;
     fd := FileDescriptor_default;
     being_compacted := false;
     smallest := BoundaryValues_default;
     largest := BoundaryValues_default;
     last_op_id := OpId_default;
     imported := false;
     table_reader_handle := nullptr;
     compensated_file_size := 0;
     num_entries := 0;
     num_deletions := 0;
     raw_key_size := 0;
     raw_value_size := 0;
     init_stats_from_file := false;
     marked_for_compaction := false |}.

(** Field assignments [f.x = v] on a [FileMetaData] and its descriptor. *)
Definition set_table_reader (p : pointer) (d : FileDescriptor) : FileDescriptor :=
  {| table_reader := p;
     packed_number_and_path_id := packed_number_and_path_id d;
     total_file_size := total_file_size d;
     base_file_size := base_file_size d |}.

Definition set_fd (d : FileDescriptor) (f : FileMetaData) : FileMetaData :=
  mkFileMetaData (refs f) d (being_compacted f) (smallest f) (largest f)
    (last_op_id f) (imported f) (table_reader_handle f)
    (compensated_file_size f) (num_entries f) (num_deletions f)
    (raw_key_size f) (raw_value_size f) (init_stats_from_file f)
    (marked_for_compaction f).

Definition set_smallest (b : BoundaryValues) (f : FileMetaData) : FileMetaData :=
  mkFileMetaData (refs f) (fd f) (being_compacted f) b (largest f)
    (last_op_id f) (imported f) (table_reader_handle f)
    (compensated_file_size f) (num_entries f) (num_deletions f)
    (raw_key_size f) (raw_value_size f) (init_stats_from_file f)
    (marked_for_compaction f).

Definition set_largest (b : BoundaryValues) (f : FileMetaData) : FileMetaData :=
  mkFileMetaData (refs f) (fd f) (being_compacted f) (smallest f) b
    (last_op_id f) (imported f) (table_reader_handle f)
    (compensated_file_size f) (num_entries f) (num_deletions f)
    (raw_key_size f) (raw_value_size f) (init_stats_from_file f)
    (marked_for_compaction f).

Definition set_last_op_id (o : OpId) (f : FileMetaData) : FileMetaData :=
  mkFileMetaData (refs f) (fd f) (being_compacted f) (smallest f) (largest f)
    o (imported f) (table_reader_handle f)
    (compensated_file_size f) (num_entries f) (num_deletions f)
    (raw_key_size f) (raw_value_size f) (init_stats_from_file f)
    (marked_for_compaction f).

Definition set_imported (b : bool) (f : FileMetaData) : FileMetaData :=
  mkFileMetaData (refs f) (fd f) (being_compacted f) (smallest f) (largest f)
    (last_op_id f) b (table_reader_handle f)
    (compensated_file_size f) (num_entries f) (num_deletions f)
    (raw_key_size f) (raw_value_size f) (init_stats_from_file f)
    (marked_for_compaction f).

Definition set_marked_for_compaction (b : bool) (f : FileMetaData) : FileMetaData :=
  mkFileMetaData (refs f) (fd f) (being_compacted f) (smallest f) (largest f)
    (last_op_id f) (imported f) (table_reader_handle f)
    (compensated_file_size f) (num_entries f) (num_deletions f)
    (raw_key_size f) (raw_value_size f) (init_stats_from_file f) b.

(* ================================================================== *)
(** * VersionEdit *)

(** [typedef std::set<std::pair<int, uint64_t>> DeletedFileSet;] is
    [gset (Z * Z)], and [std::vector<std::pair<int, FileMetaData>>] is
    [list (Z * FileMetaData)]. *)
Record VersionEdit : Type := mkVersionEdit {
  max_level_ : Z;
  comparator_ : option string;
  log_number_ : option Z;
  prev_log_number_ : option Z;
  next_file_number_ : option Z;
  max_column_family_ : option Z;
  last_sequence_ : option SequenceNumber;
  flushed_op_id_ : OpId;
  deleted_files_ : gset (Z * Z);
  new_files_ : list (Z * FileMetaData);
  column_family_ : Z;
  is_column_family_drop_ : bool;
  column_family_name_ : option string
}.

(** Modelled from the spec: [Clear()] is declared in the header and defined
    elsewhere.  A fresh record has every optional field absent ("unspecified
    in this edit"), the defaulted flushed op id, no file additions or
    deletions, the default column family (the header: "If it's not set, it is
    default (0)") and no lifecycle field set (the initial state of the
    record's state machine). *)
Definition Clear (ve : VersionEdit) : VersionEdit :=
  {| max_level_ := 0;
     comparator_ := None;
     log_number_ := None;
     prev_log_number_ := None;
     next_file_number_ := None;
     max_column_family_ := None;
     last_sequence_ := None;
     flushed_op_id_ := OpId_default;
     deleted_files_ := ∅;
     new_files_ := [];
     column_family_ := 0;
     is_column_family_drop_ := false;
     column_family_name_ := None |}.

(** [VersionEdit() { Clear(); }]: the state before [Clear] is not read. *)
Definition VersionEdit_new : VersionEdit :=
  Clear (mkVersionEdit 0 None None None None None None OpId_default ∅ [] 0 false None).

Definition SetComparatorName (name : string) (ve : VersionEdit) : VersionEdit :=
  mkVersionEdit (max_level_ ve) (Some name) (log_number_ ve) (prev_log_number_ ve)
    (next_file_number_ ve) (max_column_family_ ve) (last_sequence_ ve)
    (flushed_op_id_ ve) (deleted_files_ ve) (new_files_ ve) (column_family_ ve)
    (is_column_family_drop_ ve) (column_family_name_ ve).

Definition SetLogNumber (num : Z) (ve : VersionEdit) : VersionEdit :=
  mkVersionEdit (max_level_ ve) (comparator_ ve) (Some num) (prev_log_number_ ve)
    (next_file_number_ ve) (max_column_family_ ve) (last_sequence_ ve)
    (flushed_op_id_ ve) (deleted_files_ ve) (new_files_ ve) (column_family_ ve)
    (is_column_family_drop_ ve) (column_family_name_ ve).

Definition SetPrevLogNumber (num : Z) (ve : VersionEdit) : VersionEdit :=
  mkVersionEdit (max_level_ ve) (comparator_ ve) (log_number_ ve) (Some num)
    (next_file_number_ ve) (max_column_family_ ve) (last_sequence_ ve)
    (flushed_op_id_ ve) (deleted_files_ ve) (new_files_ ve) (column_family_ ve)
    (is_column_family_drop_ ve) (column_family_name_ ve).

Definition SetNextFile (num : Z) (ve : VersionEdit) : VersionEdit :=
  mkVersionEdit (max_level_ ve) (comparator_ ve) (log_number_ ve) (prev_log_number_ ve)
    (Some num) (max_column_family_ ve) (last_sequence_ ve)
    (flushed_op_id_ ve) (deleted_files_ ve) (new_files_ ve) (column_family_ ve)
    (is_column_family_drop_ ve) (column_family_name_ ve).

Definition SetLastSequence (seq : SequenceNumber) (ve : VersionEdit) : VersionEdit :=
  mkVersionEdit (max_level_ ve) (comparator_ ve) (log_number_ ve) (prev_log_number_ ve)
    (next_file_number_ ve) (max_column_family_ ve) (Some seq)
    (flushed_op_id_ ve) (deleted_files_ ve) (new_files_ ve) (column_family_ ve)
    (is_column_family_drop_ ve) (column_family_name_ ve).

Definition SetFlushedOpId (value : OpId) (ve : VersionEdit) : VersionEdit :=
  mkVersionEdit (max_level_ ve) (comparator_ ve) (log_number_ ve) (prev_log_number_ ve)
    (next_file_number_ ve) (max_column_family_ ve) (last_sequence_ ve)
    value (deleted_files_ ve) (new_files_ ve) (column_family_ ve)
    (is_column_family_drop_ ve) (column_family_name_ ve).

(** [SetFlushedOpId(int64_t term, int64_t index)] *)
Definition SetFlushedOpId2 (t i : Z) (ve : VersionEdit) : VersionEdit :=
  SetFlushedOpId (mkOpId t i) ve.

Definition SetMaxColumnFamily (max_column_family : Z) (ve : VersionEdit) : VersionEdit :=
  mkVersionEdit (max_level_ ve) (comparator_ ve) (log_number_ ve) (prev_log_number_ ve)
    (next_file_number_ ve) (Some max_column_family) (last_sequence_ ve)
    (flushed_op_id_ ve) (deleted_files_ ve) (new_files_ ve) (column_family_ ve)
    (is_column_family_drop_ ve) (column_family_name_ ve).

(** [new_files_.emplace_back(level, f)] *)
Definition emplace_back_new_file (level : Z) (f : FileMetaData) (ve : VersionEdit)
  : VersionEdit :=
  mkVersionEdit (max_level_ ve) (comparator_ ve) (log_number_ ve) (prev_log_number_ ve)
    (next_file_number_ ve) (max_column_family_ ve) (last_sequence_ ve)
    (flushed_op_id_ ve) (deleted_files_ ve) (new_files_ ve ++ [(level, f)])
    (column_family_ ve) (is_column_family_drop_ ve) (column_family_name_ ve).

Definition AddTestFile (level : Z) (d : FileDescriptor)
    (smallest_ largest_ : BoundaryValues) (marked : bool) (ve : VersionEdit)
  : asserted VersionEdit :=
  assert (seqno smallest_ <=? seqno largest_) ;;
  let f := FileMetaData_default in
  let f := set_fd d f in
  let f := set_fd (set_table_reader nullptr (fd f)) f in
  let f := set_smallest smallest_ f in
  let f := set_largest largest_ f in
  let f := set_last_op_id (mkOpId 1 (to_int64 (seqno largest_))) f in
  let f := set_marked_for_compaction marked f in
  Done (emplace_back_new_file level f ve).

Definition AddFile (level : Z) (f : FileMetaData) (ve : VersionEdit)
  : asserted VersionEdit :=
  assert (seqno (smallest f) <=? seqno (largest f)) ;;
  Done (emplace_back_new_file level f ve).

Definition AddCleanedFile (level : Z) (f : FileMetaData) (ve : VersionEdit)
  : asserted VersionEdit :=
  assert (seqno (smallest f) <=? seqno (largest f)) ;;
  let nf := FileMetaData_default in
  let nf := set_fd (fd f) nf in
  let nf := set_fd (set_table_reader nullptr (fd nf)) nf in
  let nf := set_smallest (smallest f) nf in
  let nf := set_largest (largest f) nf in
  let nf := set_last_op_id (last_op_id f) nf in
  let nf := set_marked_for_compaction (marked_for_compaction f) nf in
  let nf := set_imported (imported f) nf in
  Done (emplace_back_new_file level nf ve).

(** [deleted_files_.insert({level, file})] *)
Definition DeleteFile (level file : Z) (ve : VersionEdit) : VersionEdit :=
  mkVersionEdit (max_level_ ve) (comparator_ ve) (log_number_ ve) (prev_log_number_ ve)
    (next_file_number_ ve) (max_column_family_ ve) (last_sequence_ ve)
    (flushed_op_id_ ve) ({[ (level, file) ]} ∪ deleted_files_ ve) (new_files_ ve)
    (column_family_ ve) (is_column_family_drop_ ve) (column_family_name_ ve).

(** [new_files_.size() + deleted_files_.size()].  Both containers live in
    one address space and their elements are larger than one byte, so the
    [size_t] sum does not wrap; it is a natural number here. *)
Definition NumEntries (ve : VersionEdit) : nat :=
  (length (new_files_ ve) + size (deleted_files_ ve))%nat.

(** [column_family_name_ ? true : false] *)
Definition IsColumnFamilyAdd (ve : VersionEdit) : bool :=
  if has_value (column_family_name_ ve) then true else false.

Definition IsColumnFamilyManipulation (ve : VersionEdit) : bool :=
  IsColumnFamilyAdd ve || is_column_family_drop_ ve.

Definition SetColumnFamily (column_family_id : Z) (ve : VersionEdit) : VersionEdit :=
  mkVersionEdit (max_level_ ve) (comparator_ ve) (log_number_ ve) (prev_log_number_ ve)
    (next_file_number_ ve) (max_column_family_ ve) (last_sequence_ ve)
    (flushed_op_id_ ve) (deleted_files_ ve) (new_files_ ve) column_family_id
    (is_column_family_drop_ ve) (column_family_name_ ve).

Definition AddColumnFamily (name : string) (ve : VersionEdit) : asserted VersionEdit :=
  assert (negb (is_column_family_drop_ ve)) ;;
  assert (negb (has_value (column_family_name_ ve))) ;;
  assert (NumEntries ve =? 0)%nat ;;
  Done (mkVersionEdit (max_level_ ve) (comparator_ ve) (log_number_ ve)
          (prev_log_number_ ve) (next_file_number_ ve) (max_column_family_ ve)
          (last_sequence_ ve) (flushed_op_id_ ve) (deleted_files_ ve) (new_files_ ve)
          (column_family_ ve) (is_column_family_drop_ ve) (Some name)).

Definition DropColumnFamily (ve : VersionEdit) : asserted VersionEdit :=
  assert (negb (is_column_family_drop_ ve)) ;;
  assert (negb (has_value (column_family_name_ ve))) ;;
  assert (NumEntries ve =? 0)%nat ;;
  Done (mkVersionEdit (max_level_ ve) (comparator_ ve) (log_number_ ve)
          (prev_log_number_ ve) (next_file_number_ ve) (max_column_family_ ve)
          (last_sequence_ ve) (flushed_op_id_ ve) (deleted_files_ ve) (new_files_ ve)
          (column_family_ ve) true (column_family_name_ ve)).

Definition GetDeletedFiles (ve : VersionEdit) : gset (Z * Z) := deleted_files_ ve.
Definition GetNewFiles (ve : VersionEdit) : list (Z * FileMetaData) := new_files_ ve.

(** The public mutators as data, so that a record "built through the public
    mutators" is the result of running a list of calls on a fresh record.
    [InitNewDB] is declared but not defined in the header; the spec has it
    set the comparator and the starting counters, which the setters below
    already reach. *)
Inductive mutation : Type :=
| CallClear
| CallSetComparatorName (name : string)
| CallSetLogNumber (num : Z)
| CallSetPrevLogNumber (num : Z)
| CallSetNextFile (num : Z)
| CallSetLastSequence (seq : SequenceNumber)
| CallSetFlushedOpId (value : OpId)
| CallSetMaxColumnFamily (max_column_family : Z)
| CallAddTestFile (level : Z) (d : FileDescriptor)
    (smallest_ largest_ : BoundaryValues) (marked : bool)
| CallAddFile (level : Z) (f : FileMetaData)
| CallAddCleanedFile (level : Z) (f : FileMetaData)
| CallDeleteFile (level file : Z)
| CallSetColumnFamily (column_family_id : Z)
| CallAddColumnFamily (name : string)
| CallDropColumnFamily.

Definition call (m : mutation) (ve : VersionEdit) : asserted VersionEdit :=
  match m with
  | CallClear => Done (Clear ve)
  | CallSetComparatorName name => Done (SetComparatorName name ve)
  | CallSetLogNumber num => Done (SetLogNumber num ve)
  | CallSetPrevLogNumber num => Done (SetPrevLogNumber num ve)
  | CallSetNextFile num => Done (SetNextFile num ve)
  | CallSetLastSequence seq => Done (SetLastSequence seq ve)
  | CallSetFlushedOpId value => Done (SetFlushedOpId value ve)
  | CallSetMaxColumnFamily c => Done (SetMaxColumnFamily c ve)
  | CallAddTestFile level d lo hi marked => AddTestFile level d lo hi marked ve
  | CallAddFile level f => AddFile level f ve
  | CallAddCleanedFile level f => AddCleanedFile level f ve
  | CallDeleteFile level file => Done (DeleteFile level file ve)
  | CallSetColumnFamily id => Done (SetColumnFamily id ve)
  | CallAddColumnFamily name => AddColumnFamily name ve
  | CallDropColumnFamily => DropColumnFamily ve
  end.

Fixpoint calls (ms : list mutation) (ve : VersionEdit) : asserted VersionEdit :=
  match ms with
  | [] => Done ve
  | m :: ms' => ve' ← call m ve; calls ms' ve'
  end.

(** The values the C++ types admit. *)
Definition is_int32 (z : Z) : Prop := - 2 ^ 31 <= z < 2 ^ 31.
Definition is_int64 (z : Z) : Prop := - 2 ^ 63 <= z < 2 ^ 63.

Definition well_typed_op_id (o : OpId) : Prop :=
  is_int64 (term o) /\ is_int64 (index o).

Definition well_typed_fd (d : FileDescriptor) : Prop :=
  is_uint64 (packed_number_and_path_id d) /\
  is_uint64 (total_file_size d) /\ is_uint64 (base_file_size d).

Definition well_typed_file (f : FileMetaData) : Prop :=
  is_int32 (refs f) /\ well_typed_fd (fd f) /\
  is_uint64 (seqno (smallest f)) /\ is_uint64 (seqno (largest f)) /\
  well_typed_op_id (last_op_id f) /\
  is_uint64 (compensated_file_size f) /\ is_uint64 (num_entries f) /\
  is_uint64 (num_deletions f) /\ is_uint64 (raw_key_size f) /\
  is_uint64 (raw_value_size f).

Definition well_typed_option (o : option Z) : Prop :=
  match o with Some z => is_uint64 z | None => True end.

Definition well_typed_edit (ve : VersionEdit) : Prop :=
  well_typed_option (log_number_ ve) /\
  well_typed_option (prev_log_number_ ve) /\
  well_typed_option (next_file_number_ ve) /\
  match max_column_family_ ve with Some z => is_uint32 z | None => True end /\
  well_typed_option (last_sequence_ ve) /\
  Forall (fun lf : Z * FileMetaData => is_int32 (fst lf) /\ well_typed_file (snd lf))
         (new_files_ ve) /\
  (forall d : Z * Z, d ∈ deleted_files_ ve -> is_int32 (fst d) /\ is_uint64 (snd d)) /\
  is_uint32 (column_family_ ve) /\
  well_typed_op_id (flushed_op_id_ ve).

Definition well_typed_call (m : mutation) : Prop :=
  match m with
  | CallClear | CallSetComparatorName _
  | CallAddColumnFamily _ | CallDropColumnFamily => True
  | CallSetFlushedOpId value => well_typed_op_id value
  | CallSetLogNumber num | CallSetPrevLogNumber num | CallSetNextFile num
  | CallSetLastSequence num => is_uint64 num
  | CallSetMaxColumnFamily c | CallSetColumnFamily c => is_uint32 c
  | CallAddTestFile level d lo hi _ =>
      is_int32 level /\ well_typed_fd d /\ is_uint64 (seqno lo) /\ is_uint64 (seqno hi)
  | CallAddFile level f | CallAddCleanedFile level f =>
      is_int32 level /\ well_typed_file f
  | CallDeleteFile level file => is_int32 level /\ is_uint64 file
  end.

(* ================================================================== *)
(** * The boundary extractor and UpdateBoundaries *)

(** Modelled from the spec: [BoundaryValuesExtractor] is declared elsewhere.
    It is the pluggable strategy that, "given raw key bytes and a
    caller-supplied boundary source, produces the auxiliary ordering value",
    and it is "supplied to both boundary-update and decode operations": the
    source is a [FileBoundaryValuesBase] for the former and the serialized
    auxiliary value for the latter, where it can fail. *)
Record BoundaryValuesExtractor : Type := mkExtractor {
  extract : InternalKey -> FileBoundaryValuesBase -> Aux;
  decode_user_values : InternalKey -> list byte -> option Aux
}.

(** Modelled from the spec: the boundary derived from a key and its source
    is the key itself with the source's sequence number and the auxiliary
    value that the extractor derives from the source. *)
Definition derived_boundary (ex : BoundaryValuesExtractor) (k : InternalKey)
    (source : FileBoundaryValuesBase) : BoundaryValues :=
  mkBoundary k (mkBoundaryBase (seqno source) (extract ex k source)).

(** Modelled from the spec: the "first call" is the one that finds the
    boundaries unset, that is, the smallest key still empty as default
    construction left it (an internal key of the store is never empty). *)
Definition boundaries_unset (f : FileMetaData) : bool :=
  match key (smallest f) with
  | [] => true
  | _ :: _ => false
  end.

(** Modelled from the spec: [FileMetaData::UpdateBoundaries] is declared in
    the header and defined elsewhere.  "On the first call, both smallest and
    largest are initialized from the new key; on subsequent calls, smallest
    stays the minimum seen, largest is updated to the newly-supplied key", and
    "the auxiliary ordering value is derived from sourceBoundary via the
    extractor".  No key is compared: the function relies on its REQUIRED
    clause (sorted input). *)
Definition UpdateBoundaries (ex : BoundaryValuesExtractor) (k : InternalKey)
    (source : FileBoundaryValuesBase) (f : FileMetaData) : FileMetaData :=
  let b := derived_boundary ex k source in
  if boundaries_unset f
  then set_largest b (set_smallest b f)
  else set_largest b f.

(** The keys of one file, fed in order. *)
Fixpoint UpdateBoundaries_all (ex : BoundaryValuesExtractor)
    (inputs : list (InternalKey * FileBoundaryValuesBase)) (f : FileMetaData)
  : FileMetaData :=
  match inputs with
  | [] => f
  | (k, source) :: rest => UpdateBoundaries_all ex rest (UpdateBoundaries ex k source f)
  end.

(* ================================================================== *)
(** * Encoding and decoding *)

(** The serialized form of an auxiliary value, provided by its own type. *)
Variable user_values_bytes : Aux -> list byte.

(** Modelled from the spec: invariants (b) and (c) of the record, "at most
    one of {creates-column-family, drops-column-family} is true" and "if
    either is true, newFiles and deletedFiles are both empty". *)
Definition lifecycle_exclusive (ve : VersionEdit) : bool :=
  negb (IsColumnFamilyAdd ve && is_column_family_drop_ ve) &&
  (negb (IsColumnFamilyManipulation ve) || (NumEntries ve =? 0)%nat).

Definition op_id_to_pb (o : OpId) : OpIdPB := mkOpIdPB (term o) (index o).
Definition op_id_of_pb (o : OpIdPB) : OpId := mkOpId (pb_term o) (pb_index o).

Definition boundary_to_pb (b : BoundaryValues) : BoundaryValuesPB :=
  mkBoundaryValuesPB (key b) (user_values_bytes (aux b)) (Z.to_N (seqno b)).

(** The persisted fields of a file addition; [refs], the table reader, the
    reader handle and [being_compacted] are not written. *)
Definition new_file_to_pb (lf : Z * FileMetaData) : NewFilePB :=
  let (level, f) := lf in
  {| pb_level := level;
     pb_packed_number_and_path_id := Z.to_N (packed_number_and_path_id (fd f));
     pb_total_file_size := Z.to_N (total_file_size (fd f));
     pb_base_file_size := Z.to_N (base_file_size (fd f));
     pb_smallest := Some (boundary_to_pb (smallest f));
     pb_largest := Some (boundary_to_pb (largest f));
     pb_last_op_id := op_id_to_pb (last_op_id f);
     pb_imported := imported f;
     pb_compensated_file_size := Z.to_N (compensated_file_size f);
     pb_num_entries := Z.to_N (num_entries f);
     pb_num_deletions := Z.to_N (num_deletions f);
     pb_raw_key_size := Z.to_N (raw_key_size f);
     pb_raw_value_size := Z.to_N (raw_value_size f);
     pb_init_stats_from_file := init_stats_from_file f;
     pb_marked_for_compaction := marked_for_compaction f |}.

Definition deleted_file_to_pb (d : Z * Z) : DeletedFilePB :=
  mkDeletedFilePB (fst d) (Z.to_N (snd d)).

Definition deleted_file_of_pb (d : DeletedFilePB) : Z * Z :=
  (pb_deleted_level d, Z.of_N (pb_file_number d)).

(** Modelled from the spec: [EncodeTo] "returns false only if an internal
    invariant about field presence makes the record unencodable (e.g.,
    conflicting tri-state combinations)"; otherwise every optional field is
    written exactly when it is present, the file additions in their order and
    the deletion set as a list. *)
Definition EncodeTo (ve : VersionEdit) : option VersionEditPB :=
  if lifecycle_exclusive ve then
    Some {| pb_comparator := comparator_ ve;
            pb_log_number := Z.to_N <$> log_number_ ve;
            pb_prev_log_number := Z.to_N <$> prev_log_number_ ve;
            pb_next_file_number := Z.to_N <$> next_file_number_ ve;
            pb_max_column_family := Z.to_N <$> max_column_family_ ve;
            pb_last_sequence := Z.to_N <$> last_sequence_ ve;
            pb_flushed_op_id := op_id_to_pb (flushed_op_id_ ve);
            pb_new_files := map new_file_to_pb (new_files_ ve);
            pb_deleted_files := map deleted_file_to_pb (elements (deleted_files_ ve));
            pb_column_family := Z.to_N (column_family_ ve);
            pb_column_family_name := column_family_name_ ve;
            pb_is_column_family_drop := is_column_family_drop_ ve |}
  else None.

(** Modelled from the spec: [AppendEncodedTo(std::string* dst)] appends the
    serialized message to [dst] and returns [true], or returns [false] and
    leaves [dst] alone when the record cannot be encoded. *)
Definition AppendEncodedTo (ve : VersionEdit) (dst : list byte) : bool * list byte :=
  match EncodeTo ve with
  | Some pb => (true, dst ++ MessageCodec.SerializeToString pb)
  | None => (false, dst)
  end.

(** Modelled from the spec: a boundary is a required sub-field of a file
    entry; its auxiliary value is decoded by the extractor. *)
Definition decode_boundary (ex : BoundaryValuesExtractor)
    (field : option BoundaryValuesPB) : option BoundaryValues :=
  match field with
  | None => None
  | Some b =>
      match decode_user_values ex (pb_key b) (pb_user_values b) with
      | Some a => Some (mkBoundary (pb_key b) (mkBoundaryBase (Z.of_N (pb_seqno b)) a))
      | None => None
      end
  end.

(** Modelled from the spec: one file addition is accepted when both
    boundaries are present and decodable, their sequence numbers are ordered
    and the packed identity fits its 64 bits.  The fields that are not
    persisted keep the values of a default-constructed [FileMetaData]. *)
Definition decode_new_file (ex : BoundaryValuesExtractor) (pb : NewFilePB)
  : option (Z * FileMetaData) :=
  match decode_boundary ex (pb_smallest pb), decode_boundary ex (pb_largest pb) with
  | Some lo, Some hi =>
      if (seqno lo <=? seqno hi) &&
         (pb_packed_number_and_path_id pb <? 2 ^ 64)%N
      then
        Some (pb_level pb,
              {| refs := refs FileMetaData_default;
                 fd := {| table_reader := table_reader (fd FileMetaData_default);
                          packed_number_and_path_id :=
                            Z.of_N (pb_packed_number_and_path_id pb);
                          total_file_size := Z.of_N (pb_total_file_size pb);
                          base_file_size := Z.of_N (pb_base_file_size pb) |};
                 being_compacted := being_compacted FileMetaData_default;
                 smallest := lo;
                 largest := hi;
                 last_op_id := op_id_of_pb (pb_last_op_id pb);
                 imported := pb_imported pb;
                 table_reader_handle := table_reader_handle FileMetaData_default;
                 compensated_file_size := Z.of_N (pb_compensated_file_size pb);
                 num_entries := Z.of_N (pb_num_entries pb);
                 num_deletions := Z.of_N (pb_num_deletions pb);
                 raw_key_size := Z.of_N (pb_raw_key_size pb);
                 raw_value_size := Z.of_N (pb_raw_value_size pb);
                 init_stats_from_file := pb_init_stats_from_file pb;
                 marked_for_compaction := pb_marked_for_compaction pb |})
      else None
  | _, _ => None
  end.

Fixpoint decode_new_files (ex : BoundaryValuesExtractor) (pbs : list NewFilePB)
  : option (list (Z * FileMetaData)) :=
  match pbs with
  | [] => Some []
  | pb :: rest =>
      match decode_new_file ex pb, decode_new_files ex rest with
      | Some lf, Some lfs => Some (lf :: lfs)
      | _, _ => None
      end
  end.

(** Modelled from the spec: the record that the parsed message describes,
    on top of a fresh one; every optional field is present exactly when the
    message has it. *)
Definition edit_of_pb (pb : VersionEditPB) (files : list (Z * FileMetaData))
  : VersionEdit :=
  {| max_level_ := max_level_ VersionEdit_new;
     comparator_ := pb_comparator pb;
     log_number_ := Z.of_N <$> pb_log_number pb;
     prev_log_number_ := Z.of_N <$> pb_prev_log_number pb;
     next_file_number_ := Z.of_N <$> pb_next_file_number pb;
     max_column_family_ := Z.of_N <$> pb_max_column_family pb;
     last_sequence_ := Z.of_N <$> pb_last_sequence pb;
     flushed_op_id_ := op_id_of_pb (pb_flushed_op_id pb);
     deleted_files_ := list_to_set (map deleted_file_of_pb (pb_deleted_files pb));
     new_files_ := files;
     column_family_ := Z.of_N (pb_column_family pb);
     is_column_family_drop_ := pb_is_column_family_drop pb;
     column_family_name_ := pb_column_family_name pb |}.

(** Modelled from the spec: [DecodeFrom] "parses bytes into a fresh record"
    and "fails with a corruption error when: the byte stream is truncated or
    malformed, a file entry lacks a required sub-field (e.g., missing boundary
    data), a boundary pair violates the sequence-ordering invariant, a packed
    identity exceeds the bit-width contract, or the decoded column-family
    lifecycle fields violate mutual exclusivity".  The member function of
    the header returns a [Status] and leaves the record in the object it is
    called on; here the record is the payload of the successful result. *)
Definition DecodeFrom (ex : BoundaryValuesExtractor) (src : list byte)
  : Result VersionEdit :=
  match MessageCodec.ParseFromArray src with
  | None => Corruption
  | Some pb =>
      match decode_new_files ex (pb_new_files pb) with
      | None => Corruption
      | Some files =>
          let ve := edit_of_pb pb files in
          if lifecycle_exclusive ve then Decoded ve else Corruption
      end
  end.

(** Modelled from the spec: what recovery sees of a file and of a record,
    the persisted fields as they were and the transient ones ("reference
    count, reader handle, being-compacted flag") at their defaults. *)
Definition recovered_file (f : FileMetaData) : FileMetaData :=
  {| refs := refs FileMetaData_default;
     fd := set_table_reader (table_reader (fd FileMetaData_default)) (fd f);
     being_compacted := being_compacted FileMetaData_default;
     smallest := smallest f;
     largest := largest f;
     last_op_id := last_op_id f;
     imported := imported f;
     table_reader_handle := table_reader_handle FileMetaData_default;
     compensated_file_size := compensated_file_size f;
     num_entries := num_entries f;
     num_deletions := num_deletions f;
     raw_key_size := raw_key_size f;
     raw_value_size := raw_value_size f;
     init_stats_from_file := init_stats_from_file f;
     marked_for_compaction := marked_for_compaction f |}.

Definition recovered (ve : VersionEdit) : VersionEdit :=
  mkVersionEdit (max_level_ ve) (comparator_ ve) (log_number_ ve) (prev_log_number_ ve)
    (next_file_number_ ve) (max_column_family_ ve) (last_sequence_ ve)
    (flushed_op_id_ ve) (deleted_files_ ve)
    (map (fun lf : Z * FileMetaData => (fst lf, recovered_file (snd lf))) (new_files_ ve))
    (column_family_ ve) (is_column_family_drop_ ve) (column_family_name_ ve).

(* ================================================================== *)
(** * Notions used in the statements *)

(** The record that [AddCleanedFile] builds from [f]. *)
Definition cleaned (f : FileMetaData) : FileMetaData :=
  set_imported (imported f)
    (set_marked_for_compaction (marked_for_compaction f)
       (set_last_op_id (last_op_id f)
          (set_largest (largest f)
             (set_smallest (smallest f)
                (set_fd (set_table_reader nullptr (fd f)) FileMetaData_default))))).

(** The record that [AddTestFile] builds from its arguments. *)
Definition test_file (d : FileDescriptor) (lo hi : BoundaryValues) (marked : bool)
  : FileMetaData :=
  set_marked_for_compaction marked
    (set_last_op_id (mkOpId 1 (to_int64 (seqno hi)))
       (set_largest hi
          (set_smallest lo
             (set_fd (set_table_reader nullptr d) FileMetaData_default)))).

(** What one call adds to [new_files_] and to [deleted_files_], and the
    totals over a run of calls. *)
Definition appended (m : mutation) : list (Z * FileMetaData) :=
  match m with
  | CallAddTestFile level d lo hi marked => [(level, test_file d lo hi marked)]
  | CallAddFile level f => [(level, f)]
  | CallAddCleanedFile level f => [(level, cleaned f)]
  | _ => []
  end.

Definition deleted (m : mutation) : gset (Z * Z) :=
  match m with
  | CallDeleteFile level file => {[ (level, file) ]}
  | _ => ∅
  end.

Fixpoint additions (ms : list mutation) : nat :=
  match ms with
  | [] => 0
  | m :: ms' => length (appended m) + additions ms'
  end.

Fixpoint deletions (ms : list mutation) : gset (Z * Z) :=
  match ms with
  | [] => ∅
  | m :: ms' => deleted m ∪ deletions ms'
  end.

(** A lawful codec: decoding an encoding followed by anything gives the
    value back and leaves the rest; decoding an encoding that was cut short
    fails. *)
Record lawful {A : Type} (c : Wire.codec A) : Prop := mkLawful {
  dec_enc : forall x rest, Wire.dec c (Wire.enc c x ++ rest) = Some (x, rest);
  dec_cut : forall x p q, Wire.enc c x = p ++ q -> q <> [] -> Wire.dec c p = None
}.

(** What holds of every record reached from a fresh one: its fields stay
    within their C++ types, [max_level_] is never written, and every added
    file has ordered boundary sequence numbers (invariant (a); the assertions
    of the three file additions). *)
Definition built_invariant (ve : VersionEdit) : Prop :=
  well_typed_edit ve /\
  max_level_ ve = max_level_ VersionEdit_new /\
  Forall (fun lf : Z * FileMetaData =>
            seqno (smallest (snd lf)) <= seqno (largest (snd lf)))
         (new_files_ ve).

(** The lifecycle fields of a message contradict each other or the presence
    of file entries. *)
Definition lifecycle_conflict (pb : VersionEditPB) : Prop :=
  (is_Some (pb_column_family_name pb) /\ pb_is_column_family_drop pb = true) \/
  ((is_Some (pb_column_family_name pb) \/ pb_is_column_family_drop pb = true) /\
   (pb_new_files pb <> [] \/ pb_deleted_files pb <> [])).

(** The ways in which the input of [DecodeFrom] can be corrupt: an encoded
    record that lost its end; bytes that are no message; a file entry without
    one of its boundaries; a file entry whose smallest boundary has the
    larger sequence number; a packed identity that does not fit 64 bits;
    conflicting lifecycle fields. *)
Inductive corrupt (src : list byte) : Prop :=
| corrupt_truncated (ve : VersionEdit) (cut : list byte) :
    AppendEncodedTo ve [] = (true, src ++ cut) -> cut <> [] -> corrupt src
| corrupt_malformed :
    MessageCodec.ParseFromArray src = None -> corrupt src
| corrupt_missing_boundary (pb : VersionEditPB) (f : NewFilePB) :
    MessageCodec.ParseFromArray src = Some pb -> f ∈ pb_new_files pb ->
    pb_smallest f = None \/ pb_largest f = None -> corrupt src
| corrupt_boundary_order (pb : VersionEditPB) (f : NewFilePB)
    (lo hi : BoundaryValuesPB) :
    MessageCodec.ParseFromArray src = Some pb -> f ∈ pb_new_files pb ->
    pb_smallest f = Some lo -> pb_largest f = Some hi ->
    (pb_seqno hi < pb_seqno lo)%N -> corrupt src
| corrupt_identity_width (pb : VersionEditPB) (f : NewFilePB) :
    MessageCodec.ParseFromArray src = Some pb -> f ∈ pb_new_files pb ->
    (2 ^ 64 <= pb_packed_number_and_path_id f)%N -> corrupt src
| corrupt_lifecycle (pb : VersionEditPB) :
    MessageCodec.ParseFromArray src = Some pb -> lifecycle_conflict pb ->
    corrupt src.

(** The record after a call that did not abort. *)
Definition effect (m : mutation) (ve : VersionEdit) : VersionEdit :=
  match m with
  | CallClear => Clear ve
  | CallSetComparatorName name => SetComparatorName name ve
  | CallSetLogNumber num => SetLogNumber num ve
  | CallSetPrevLogNumber num => SetPrevLogNumber num ve
  | CallSetNextFile num => SetNextFile num ve
  | CallSetLastSequence seq => SetLastSequence seq ve
  | CallSetFlushedOpId value => SetFlushedOpId value ve
  | CallSetMaxColumnFamily c => SetMaxColumnFamily c ve
  | CallAddTestFile level d lo hi marked =>
      emplace_back_new_file level (test_file d lo hi marked) ve
  | CallAddFile level f => emplace_back_new_file level f ve
  | CallAddCleanedFile level f => emplace_back_new_file level (cleaned f) ve
  | CallDeleteFile level file => DeleteFile level file ve
  | CallSetColumnFamily id => SetColumnFamily id ve
  | CallAddColumnFamily name =>
      mkVersionEdit (max_level_ ve) (comparator_ ve) (log_number_ ve)
        (prev_log_number_ ve) (next_file_number_ ve) (max_column_family_ ve)
        (last_sequence_ ve) (flushed_op_id_ ve) (deleted_files_ ve) (new_files_ ve)
        (column_family_ ve) (is_column_family_drop_ ve) (Some name)
  | CallDropColumnFamily =>
      mkVersionEdit (max_level_ ve) (comparator_ ve) (log_number_ ve)
        (prev_log_number_ ve) (next_file_number_ ve) (max_column_family_ ve)
        (last_sequence_ ve) (flushed_op_id_ ve) (deleted_files_ ve) (new_files_ ve)
        (column_family_ ve) true (column_family_name_ ve)
  end.

(** The calls that only assign one field. *)
Definition is_setter (m : mutation) : bool :=
  match m with
  | CallSetComparatorName _ | CallSetLogNumber _ | CallSetPrevLogNumber _
  | CallSetNextFile _ | CallSetLastSequence _ | CallSetFlushedOpId _
  | CallSetMaxColumnFamily _ | CallSetColumnFamily _ => true
  | _ => false
  end.

(** The condition that the assertions of a file addition check.  The setters
    and [DeleteFile] assert nothing; the lifecycle calls, whose assertions
    depend on the record, and [Clear], whose body is outside the header, are
    left out. *)
Definition file_call_in_order (m : mutation) : Prop :=
  match m with
  | CallAddTestFile _ _ lo hi _ => seqno lo <= seqno hi
  | CallAddFile _ f | CallAddCleanedFile _ f =>
      seqno (smallest f) <= seqno (largest f)
  | CallAddColumnFamily _ | CallDropColumnFamily | CallClear => False
  | _ => True
  end.

(** The value a field holds after a run of calls: that of the last call that
    writes it, or the initial one. *)
Definition last_write {X : Type} (writes : mutation -> option X)
    (ms : list mutation) (init : X) : X :=
  fold_left (fun acc m => match writes m with Some x => x | None => acc end) ms init.

Definition writes_comparator (m : mutation) : option (option string) :=
  match m with CallSetComparatorName name => Some (Some name) | _ => None end.
Definition writes_log_number (m : mutation) : option (option Z) :=
  match m with CallSetLogNumber num => Some (Some num) | _ => None end.
Definition writes_prev_log_number (m : mutation) : option (option Z) :=
  match m with CallSetPrevLogNumber num => Some (Some num) | _ => None end.
Definition writes_next_file_number (m : mutation) : option (option Z) :=
  match m with CallSetNextFile num => Some (Some num) | _ => None end.
Definition writes_max_column_family (m : mutation) : option (option Z) :=
  match m with CallSetMaxColumnFamily c => Some (Some c) | _ => None end.
Definition writes_last_sequence (m : mutation) : option (option SequenceNumber) :=
  match m with CallSetLastSequence seq => Some (Some seq) | _ => None end.
Definition writes_flushed_op_id (m : mutation) : option OpId :=
  match m with CallSetFlushedOpId value => Some value | _ => None end.
Definition writes_column_family (m : mutation) : option Z :=
  match m with CallSetColumnFamily id => Some id | _ => None end.

(* ================================================================== *)
(** * Identity packing *)

Lemma kFileNumberMask_ones : kFileNumberMask = Z.ones 62.
Proof. reflexivity. Qed.

Lemma pack_in_range (number path_id : Z) :
  0 <= number <= 2 ^ 62 - 1 -> 0 <= path_id <= 3 ->
  PackFileNumberAndPathId number path_id = path_id * (kFileNumberMask + 1) + number.
Proof.
  intros Hn Hp. unfold PackFileNumberAndPathId, wrap64, kFileNumberMask.
  change (0x3FFFFFFFFFFFFFFF + 1) with (2 ^ 62) in *.
  rewrite (Z.mod_small (2 ^ 62)) by lia.
  rewrite (Z.mod_small (path_id * 2 ^ 62)) by lia.
  apply Z.mod_small. lia.
Qed.

(** C2.  For every file number in [0, 2^62-1] and path id in [0, 3], the
    descriptor built from them packs the pair as
    [path_id * (kFileNumberMask + 1) + number] (no wrap-around occurs),
    [GetNumber] (the mask) gives the number back and [GetPathId] (the
    division) gives the path id back. *)
Theorem pack_unpack_identity (number path_id total base : Z) :
  0 <= number <= 2 ^ 62 - 1 -> 0 <= path_id <= 3 ->
  let fd := FileDescriptor_of number path_id total base in
  packed_number_and_path_id fd = path_id * (kFileNumberMask + 1) + number /\
  GetNumber fd = number /\
  GetPathId fd = path_id.
Proof.
  intros Hn Hp fd. subst fd.
  unfold GetNumber, GetPathId, FileDescriptor_of; cbn [packed_number_and_path_id].
  rewrite (pack_in_range _ _ Hn Hp).
  split; [reflexivity|]. split.
  - rewrite kFileNumberMask_ones, Z.land_ones by lia.
    change (Z.ones 62 + 1) with (2 ^ 62).
    rewrite Z.add_comm, Z.mod_add by lia. apply Z.mod_small. lia.
  - unfold wrap32, wrap64, kFileNumberMask.
    change (0x3FFFFFFFFFFFFFFF + 1) with (2 ^ 62).
    rewrite (Z.mod_small (2 ^ 62)) by lia.
    rewrite Z.add_comm, Z.div_add by lia.
    rewrite (Z.div_small number) by lia. apply Z.mod_small. lia.
Qed.

(* ================================================================== *)
(** * The mutators and their assertions *)

Lemma AddFile_ordered level f ve :
  seqno (smallest f) <= seqno (largest f) ->
  AddFile level f ve = Done (emplace_back_new_file level f ve).
Proof.
  intros H. unfold AddFile.
  destruct (Z.leb_spec (seqno (smallest f)) (seqno (largest f))); [reflexivity | lia].
Qed.

Lemma AddFile_unordered level f ve :
  seqno (smallest f) > seqno (largest f) -> AddFile level f ve = AssertionFailed.
Proof.
  intros H. unfold AddFile.
  destruct (Z.leb_spec (seqno (smallest f)) (seqno (largest f))); [lia | reflexivity].
Qed.

Lemma AddCleanedFile_ordered level f ve :
  seqno (smallest f) <= seqno (largest f) ->
  AddCleanedFile level f ve = Done (emplace_back_new_file level (cleaned f) ve).
Proof.
  intros H. unfold AddCleanedFile.
  destruct (Z.leb_spec (seqno (smallest f)) (seqno (largest f))); [reflexivity | lia].
Qed.

Lemma AddCleanedFile_unordered level f ve :
  seqno (smallest f) > seqno (largest f) -> AddCleanedFile level f ve = AssertionFailed.
Proof.
  intros H. unfold AddCleanedFile.
  destruct (Z.leb_spec (seqno (smallest f)) (seqno (largest f))); [lia | reflexivity].
Qed.

Lemma AddTestFile_ordered level d (lo hi : BoundaryValues) marked ve :
  seqno lo <= seqno hi ->
  AddTestFile level d lo hi marked ve =
  Done (emplace_back_new_file level (test_file d lo hi marked) ve).
Proof.
  intros H. unfold AddTestFile.
  destruct (Z.leb_spec (seqno lo) (seqno hi)); [reflexivity | lia].
Qed.

Lemma AddTestFile_unordered level d (lo hi : BoundaryValues) marked ve :
  seqno lo > seqno hi -> AddTestFile level d lo hi marked ve = AssertionFailed.
Proof.
  intros H. unfold AddTestFile.
  destruct (Z.leb_spec (seqno lo) (seqno hi)); [lia | reflexivity].
Qed.

(** C4.  A file whose smallest boundary has a larger sequence number than its
    largest one makes [AddFile], [AddCleanedFile] and [AddTestFile] (given the
    same boundary pair) abort on their assertion, so nothing is appended;
    when the sequence numbers are ordered the assertion holds and each of
    them appends one pair, carrying these boundaries, at the end of
    [new_files_]. *)
Theorem file_addition_asserts_boundary_order
    (level : Z) (f : FileMetaData) (d : FileDescriptor) (marked : bool)
    (ve : VersionEdit) :
  (seqno (smallest f) > seqno (largest f) ->
     AddFile level f ve = AssertionFailed /\
     AddCleanedFile level f ve = AssertionFailed /\
     AddTestFile level d (smallest f) (largest f) marked ve = AssertionFailed) /\
  (seqno (smallest f) <= seqno (largest f) ->
     (exists ve', AddFile level f ve = Done ve' /\
        new_files_ ve' = new_files_ ve ++ [(level, f)]) /\
     (exists ve' nf, AddCleanedFile level f ve = Done ve' /\
        new_files_ ve' = new_files_ ve ++ [(level, nf)] /\
        smallest nf = smallest f /\ largest nf = largest f) /\
     (exists ve' nf, AddTestFile level d (smallest f) (largest f) marked ve = Done ve' /\
        new_files_ ve' = new_files_ ve ++ [(level, nf)] /\
        smallest nf = smallest f /\ largest nf = largest f)).
Proof.
  split; intros H.
  - rewrite AddFile_unordered, AddCleanedFile_unordered, AddTestFile_unordered by assumption.
    auto.
  - rewrite AddFile_ordered, AddCleanedFile_ordered, AddTestFile_ordered by assumption.
    repeat split; eauto 8.
Qed.

(** C7.  With ordered boundary sequence numbers, [AddCleanedFile] appends a
    record whose table reader pointer is null and whose [refs],
    [being_compacted], reader handle, compensated size and statistics are
    those of a default-constructed [FileMetaData], and which keeps the packed
    identity and sizes of the descriptor, both boundaries, [last_op_id],
    [imported] and [marked_for_compaction] of its argument. *)
Theorem AddCleanedFile_strips_transient_state
    (level : Z) (f : FileMetaData) (ve : VersionEdit) :
  seqno (smallest f) <= seqno (largest f) ->
  exists ve' nf,
    AddCleanedFile level f ve = Done ve' /\
    new_files_ ve' = new_files_ ve ++ [(level, nf)] /\
    table_reader (fd nf) = nullptr /\
    refs nf = refs FileMetaData_default /\
    being_compacted nf = being_compacted FileMetaData_default /\
    table_reader_handle nf = table_reader_handle FileMetaData_default /\
    compensated_file_size nf = compensated_file_size FileMetaData_default /\
    num_entries nf = num_entries FileMetaData_default /\
    num_deletions nf = num_deletions FileMetaData_default /\
    raw_key_size nf = raw_key_size FileMetaData_default /\
    raw_value_size nf = raw_value_size FileMetaData_default /\
    init_stats_from_file nf = init_stats_from_file FileMetaData_default /\
    packed_number_and_path_id (fd nf) = packed_number_and_path_id (fd f) /\
    total_file_size (fd nf) = total_file_size (fd f) /\
    base_file_size (fd nf) = base_file_size (fd f) /\
    smallest nf = smallest f /\
    largest nf = largest f /\
    last_op_id nf = last_op_id f /\
    imported nf = imported f /\
    marked_for_compaction nf = marked_for_compaction f.
Proof.
  intros H. exists (emplace_back_new_file level (cleaned f) ve), (cleaned f).
  rewrite AddCleanedFile_ordered by assumption.
  repeat split.
Qed.

(** C10.  With ordered boundary sequence numbers, the pair appended by
    [AddFile] holds its argument unchanged: the table reader pointer, [refs],
    [being_compacted], the reader handle, the compensated size and the
    statistics are those of [f].  [AddCleanedFile] and [AddTestFile] store a
    record whose table reader pointer is null instead. *)
Theorem AddFile_stores_argument_verbatim
    (level : Z) (f : FileMetaData) (d : FileDescriptor) (marked : bool)
    (ve : VersionEdit) :
  seqno (smallest f) <= seqno (largest f) ->
  (exists ve' stored,
     AddFile level f ve = Done ve' /\
     new_files_ ve' = new_files_ ve ++ [(level, stored)] /\
     stored = f /\
     table_reader (fd stored) = table_reader (fd f) /\
     refs stored = refs f /\
     being_compacted stored = being_compacted f /\
     table_reader_handle stored = table_reader_handle f /\
     compensated_file_size stored = compensated_file_size f /\
     num_entries stored = num_entries f /\
     num_deletions stored = num_deletions f /\
     raw_key_size stored = raw_key_size f /\
     raw_value_size stored = raw_value_size f /\
     init_stats_from_file stored = init_stats_from_file f) /\
  (exists ve' stored,
     AddCleanedFile level f ve = Done ve' /\
     new_files_ ve' = new_files_ ve ++ [(level, stored)] /\
     table_reader (fd stored) = nullptr) /\
  (exists ve' stored,
     AddTestFile level d (smallest f) (largest f) marked ve = Done ve' /\
     new_files_ ve' = new_files_ ve ++ [(level, stored)] /\
     table_reader (fd stored) = nullptr).
Proof.
  intros H.
  rewrite AddFile_ordered, AddCleanedFile_ordered, AddTestFile_ordered by assumption.
  split; [|split].
  - exists (emplace_back_new_file level f ve), f. repeat split.
  - exists (emplace_back_new_file level (cleaned f) ve), (cleaned f). repeat split.
  - eexists _, _. repeat split.
Qed.

(** ** Counting entries *)

Lemma NumEntries_emplace_back level f ve :
  NumEntries (emplace_back_new_file level f ve) = S (NumEntries ve).
Proof. unfold NumEntries; cbn. rewrite length_app; cbn. lia. Qed.

Lemma size_insert_pos (x : Z * Z) (s : gset (Z * Z)) : size ({[x]} ∪ s) <> 0%nat.
Proof.
  apply size_non_empty_iff. intros H.
  apply (not_elem_of_empty (C := gset (Z * Z)) x).
  rewrite <- H. apply elem_of_union_l. by apply elem_of_singleton.
Qed.

Lemma NumEntries_DeleteFile_pos level file ve :
  NumEntries (DeleteFile level file ve) <> 0%nat.
Proof.
  unfold NumEntries; cbn.
  pose proof (size_insert_pos (level, file) (deleted_files_ ve)). lia.
Qed.

Lemma has_value_column_family_name ve :
  has_value (column_family_name_ ve) = IsColumnFamilyAdd ve.
Proof. unfold IsColumnFamilyAdd. by destruct (column_family_name_ ve). Qed.

Lemma AddColumnFamily_aborts name ve :
  is_column_family_drop_ ve = true \/ IsColumnFamilyAdd ve = true \/
  NumEntries ve <> 0%nat ->
  AddColumnFamily name ve = AssertionFailed.
Proof.
  unfold AddColumnFamily. rewrite has_value_column_family_name.
  intros [H | [H | H]].
  - rewrite H. reflexivity.
  - rewrite H. destruct (is_column_family_drop_ ve); reflexivity.
  - destruct (is_column_family_drop_ ve), (IsColumnFamilyAdd ve); try reflexivity.
    destruct (Nat.eqb_spec (NumEntries ve) 0); [contradiction | reflexivity].
Qed.

Lemma DropColumnFamily_aborts ve :
  is_column_family_drop_ ve = true \/ IsColumnFamilyAdd ve = true \/
  NumEntries ve <> 0%nat ->
  DropColumnFamily ve = AssertionFailed.
Proof.
  unfold DropColumnFamily. rewrite has_value_column_family_name.
  intros [H | [H | H]].
  - rewrite H. reflexivity.
  - rewrite H. destruct (is_column_family_drop_ ve); reflexivity.
  - destruct (is_column_family_drop_ ve), (IsColumnFamilyAdd ve); try reflexivity.
    destruct (Nat.eqb_spec (NumEntries ve) 0); [contradiction | reflexivity].
Qed.

Lemma AddColumnFamily_done name ve ve' :
  AddColumnFamily name ve = Done ve' ->
  IsColumnFamilyAdd ve' = true /\
  new_files_ ve' = new_files_ ve /\ deleted_files_ ve' = deleted_files_ ve /\
  NumEntries ve' = 0%nat.
Proof.
  unfold AddColumnFamily. rewrite has_value_column_family_name.
  destruct (is_column_family_drop_ ve); [discriminate|].
  destruct (IsColumnFamilyAdd ve); [discriminate|].
  destruct (Nat.eqb_spec (NumEntries ve) 0) as [E|]; [|discriminate].
  cbn. intros [= <-]. unfold NumEntries in *. auto.
Qed.

Lemma DropColumnFamily_done ve ve' :
  DropColumnFamily ve = Done ve' ->
  is_column_family_drop_ ve' = true /\
  new_files_ ve' = new_files_ ve /\ deleted_files_ ve' = deleted_files_ ve /\
  NumEntries ve' = 0%nat.
Proof.
  unfold DropColumnFamily. rewrite has_value_column_family_name.
  destruct (is_column_family_drop_ ve); [discriminate|].
  destruct (IsColumnFamilyAdd ve); [discriminate|].
  destruct (Nat.eqb_spec (NumEntries ve) 0) as [E|]; [|discriminate].
  cbn. intros [= <-]. unfold NumEntries in *. auto.
Qed.

Lemma AddFile_done level f ve ve' :
  AddFile level f ve = Done ve' ->
  seqno (smallest f) <= seqno (largest f) /\ ve' = emplace_back_new_file level f ve.
Proof.
  unfold AddFile.
  destruct (Z.leb_spec (seqno (smallest f)) (seqno (largest f))); [|discriminate].
  cbn. intros [= <-]. auto.
Qed.

Lemma AddCleanedFile_done level f ve ve' :
  AddCleanedFile level f ve = Done ve' ->
  seqno (smallest f) <= seqno (largest f) /\
  ve' = emplace_back_new_file level (cleaned f) ve.
Proof.
  unfold AddCleanedFile.
  destruct (Z.leb_spec (seqno (smallest f)) (seqno (largest f))); [|discriminate].
  cbn. intros [= <-]. auto.
Qed.

Lemma AddTestFile_done level d (lo hi : BoundaryValues) marked ve ve' :
  AddTestFile level d lo hi marked ve = Done ve' ->
  seqno lo <= seqno hi /\
  ve' = emplace_back_new_file level (test_file d lo hi marked) ve.
Proof.
  unfold AddTestFile.
  destruct (Z.leb_spec (seqno lo) (seqno hi)); [|discriminate].
  cbn. intros [= <-]. auto.
Qed.

(** C6.  Calling [DeleteFile] twice with the same pair leaves the same record
    as calling it once; two calls of [DeleteFile(3, 100)] on a fresh record
    give a deletion set of size 1; and whatever calls were made, the
    deletion set lists no pair twice. *)
Theorem DeleteFile_idempotent (ve : VersionEdit) (level file : Z) :
  DeleteFile level file (DeleteFile level file ve) = DeleteFile level file ve /\
  deleted_files_ (DeleteFile level file (DeleteFile level file ve)) =
    deleted_files_ (DeleteFile level file ve) /\
  size (GetDeletedFiles (DeleteFile 3 100 (DeleteFile 3 100 VersionEdit_new))) = 1%nat /\
  (forall ms ve', calls ms ve = Done ve' -> NoDup (elements (GetDeletedFiles ve'))).
Proof.
  assert (forall s : gset (Z * Z),
            {[(level, file)]} ∪ ({[(level, file)]} ∪ s) = {[(level, file)]} ∪ s) as Hset.
  { intros s. by rewrite (assoc_L (∪)), union_idemp_L. }
  split; [|split; [apply Hset | split]].
  - unfold DeleteFile; cbn. by rewrite Hset.
  - unfold GetDeletedFiles; cbn.
    rewrite union_empty_r_L, union_idemp_L, size_singleton. reflexivity.
  - intros ms ve' _. apply NoDup_elements.
Qed.

(** ** What a call adds to the two file containers *)

Lemma call_entries m ve ve' :
  call m ve = Done ve' -> m <> CallClear ->
  new_files_ ve' = new_files_ ve ++ appended m /\
  deleted_files_ ve' = deleted m ∪ deleted_files_ ve.
Proof.
  intros H Hm.
  destruct m; cbn in H; try congruence;
    try (injection H as <-; cbn; by rewrite app_nil_r, ?union_empty_l_L).
  - apply AddTestFile_done in H as [_ ->]. cbn. by rewrite union_empty_l_L.
  - apply AddFile_done in H as [_ ->]. cbn. by rewrite union_empty_l_L.
  - apply AddCleanedFile_done in H as [_ ->]. cbn. by rewrite union_empty_l_L.
  - apply AddColumnFamily_done in H as (_ & -> & -> & _).
    cbn. by rewrite app_nil_r, union_empty_l_L.
  - apply DropColumnFamily_done in H as (_ & -> & -> & _).
    cbn. by rewrite app_nil_r, union_empty_l_L.
Qed.

Lemma calls_entries ms : forall ve ve',
  calls ms ve = Done ve' -> CallClear ∉ ms ->
  length (new_files_ ve') = (length (new_files_ ve) + additions ms)%nat /\
  deleted_files_ ve' = deletions ms ∪ deleted_files_ ve.
Proof.
  induction ms as [|m ms IH]; intros ve ve' H Hc; cbn in H.
  - injection H as <-. cbn. split; [lia | by rewrite union_empty_l_L].
  - apply not_elem_of_cons in Hc as [Hm Hc].
    destruct (call m ve) as [ve1|] eqn:E; [|discriminate]. cbn in H.
    destruct (call_entries _ _ _ E (not_eq_sym Hm)) as [Hn Hd].
    destruct (IH _ _ H Hc) as [Hn' Hd'].
    rewrite Hn', Hd', Hn, Hd, length_app. cbn.
    split; [lia|].
    by rewrite (assoc_L (∪)), (comm_L (∪) (deletions ms) (deleted m)).
Qed.

Lemma call_lifecycle m ve ve' :
  call m ve = Done ve' -> m <> CallClear ->
  IsColumnFamilyManipulation ve = true -> IsColumnFamilyManipulation ve' = true.
Proof.
  intros H Hm Hl.
  destruct m; cbn in H; try congruence; try (by injection H as <-).
  - by apply AddTestFile_done in H as [_ ->].
  - by apply AddFile_done in H as [_ ->].
  - by apply AddCleanedFile_done in H as [_ ->].
  - apply AddColumnFamily_done in H as [H _].
    unfold IsColumnFamilyManipulation. by rewrite H.
  - apply DropColumnFamily_done in H as [H _].
    unfold IsColumnFamilyManipulation. by rewrite H, orb_true_r.
Qed.

Lemma calls_lifecycle ms : forall ve ve',
  calls ms ve = Done ve' -> CallClear ∉ ms ->
  IsColumnFamilyManipulation ve = true -> IsColumnFamilyManipulation ve' = true.
Proof.
  induction ms as [|m ms IH]; intros ve ve' H Hc Hl; cbn in H.
  - by injection H as <-.
  - apply not_elem_of_cons in Hc as [Hm Hc].
    destruct (call m ve) as [ve1|] eqn:E; [|discriminate]. cbn in H.
    apply (IH ve1 ve' H Hc). by apply (call_lifecycle m ve ve1 E (not_eq_sym Hm)).
Qed.

Lemma calls_NumEntries_pos ms ve ve' :
  calls ms ve = Done ve' -> CallClear ∉ ms ->
  NumEntries ve <> 0%nat -> NumEntries ve' <> 0%nat.
Proof.
  intros H Hc Hn. destruct (calls_entries _ _ _ H Hc) as [Hlen Hdel].
  unfold NumEntries in *. rewrite Hlen, Hdel.
  assert (size (deleted_files_ ve) <= size (deletions ms ∪ deleted_files_ ve))%nat
    by (apply subseteq_size, union_subseteq_r). lia.
Qed.

Lemma lifecycle_calls_abort ve :
  NumEntries ve <> 0%nat \/ IsColumnFamilyManipulation ve = true ->
  forall name, AddColumnFamily name ve = AssertionFailed /\
               DropColumnFamily ve = AssertionFailed.
Proof.
  intros H name.
  assert (is_column_family_drop_ ve = true \/ IsColumnFamilyAdd ve = true \/
          NumEntries ve <> 0%nat) as H'.
  { destruct H as [H | H]; [tauto|].
    unfold IsColumnFamilyManipulation in H. apply orb_true_iff in H. tauto. }
  split; [by apply AddColumnFamily_aborts | by apply DropColumnFamily_aborts].
Qed.

(** C3 (as the code has it).  [AddColumnFamily] and [DropColumnFamily] abort
    on their assertions when called after a file addition or deletion, and
    when called after an earlier [AddColumnFamily] or [DropColumnFamily],
    whatever other calls short of [Clear] were made in between.  The file
    mutators assert nothing about the lifecycle fields: right after a
    lifecycle call, [DeleteFile] and (with ordered boundary sequence numbers)
    [AddFile] go through, and the record then holds a lifecycle field
    together with one file entry. *)
Theorem lifecycle_exclusion_checked_one_way
    (ve : VersionEdit) (level file : Z) (f : FileMetaData) (d : FileDescriptor)
    (marked : bool) (name : string) (ms : list mutation) :
  CallClear ∉ ms ->
  (forall ve1 ve',
     AddFile level f ve = Done ve1 \/ AddCleanedFile level f ve = Done ve1 \/
     AddTestFile level d (smallest f) (largest f) marked ve = Done ve1 \/
     ve1 = DeleteFile level file ve ->
     calls ms ve1 = Done ve' ->
     forall name', AddColumnFamily name' ve' = AssertionFailed /\
                   DropColumnFamily ve' = AssertionFailed) /\
  (forall ve1 ve',
     AddColumnFamily name ve = Done ve1 \/ DropColumnFamily ve = Done ve1 ->
     calls ms ve1 = Done ve' ->
     forall name', AddColumnFamily name' ve' = AssertionFailed /\
                   DropColumnFamily ve' = AssertionFailed) /\
  (forall ve1,
     AddColumnFamily name ve = Done ve1 \/ DropColumnFamily ve = Done ve1 ->
     IsColumnFamilyManipulation (DeleteFile level file ve1) = true /\
     NumEntries (DeleteFile level file ve1) = 1%nat /\
     (seqno (smallest f) <= seqno (largest f) ->
      exists ve2, AddFile level f ve1 = Done ve2 /\
                  IsColumnFamilyManipulation ve2 = true /\
                  new_files_ ve2 = [(level, f)])).
Proof.
  intros Hclear.
  assert (forall ve1, AddColumnFamily name ve = Done ve1 \/ DropColumnFamily ve = Done ve1 ->
            IsColumnFamilyManipulation ve1 = true /\ new_files_ ve1 = [] /\
            deleted_files_ ve1 = ∅) as Hlifecycle.
  { intros ve1 H. unfold IsColumnFamilyManipulation.
    destruct H as [H | H];
      [apply AddColumnFamily_done in H | apply DropColumnFamily_done in H];
      destruct H as (Hl & _ & _ & Hn); rewrite Hl;
      unfold NumEntries in Hn;
      (split; [by rewrite ?orb_true_r|]);
      (split; [destruct (new_files_ ve1); [done | cbn in Hn; lia]|]);
      apply leibniz_equiv, size_empty_iff; lia. }
  split; [|split].
  - intros ve1 ve' H Hcalls. apply lifecycle_calls_abort. left.
    apply (calls_NumEntries_pos ms ve1 ve' Hcalls Hclear).
    destruct H as [H | [H | [H | ->]]].
    + apply AddFile_done in H as [_ ->]. rewrite NumEntries_emplace_back. lia.
    + apply AddCleanedFile_done in H as [_ ->]. rewrite NumEntries_emplace_back. lia.
    + apply AddTestFile_done in H as [_ ->]. rewrite NumEntries_emplace_back. lia.
    + apply NumEntries_DeleteFile_pos.
  - intros ve1 ve' H Hcalls. apply lifecycle_calls_abort. right.
    apply (calls_lifecycle ms ve1 ve' Hcalls Hclear).
    by apply Hlifecycle.
  - intros ve1 H. destruct (Hlifecycle ve1 H) as (Hm & Hnew & Hdel).
    split; [exact Hm|]. split.
    + unfold NumEntries; cbn. rewrite Hnew, Hdel; cbn.
      rewrite union_empty_r_L, size_singleton. reflexivity.
    + intros Ho. exists (emplace_back_new_file level f ve1).
      rewrite AddFile_ordered by assumption. split; [reflexivity|].
      split; [exact Hm|]. cbn. rewrite Hnew. reflexivity.
Qed.

(** C9.  [NumEntries] is the length of [new_files_] plus the cardinality of
    [deleted_files_]: after [AddFile(2, f)] on a fresh record it is 1 and
    [GetNewFiles] is the single pair [(2, f)]; and after any run of calls on
    a fresh record (without [Clear]) it is the number of file additions made
    plus the number of distinct pairs deleted. *)
Theorem NumEntries_counts_additions_and_deletions
    (ve : VersionEdit) (f : FileMetaData) (ms : list mutation) :
  NumEntries ve = (length (GetNewFiles ve) + size (GetDeletedFiles ve))%nat /\
  (seqno (smallest f) <= seqno (largest f) ->
   exists ve', AddFile 2 f VersionEdit_new = Done ve' /\
               NumEntries ve' = 1%nat /\ GetNewFiles ve' = [(2, f)]) /\
  (forall ve', calls ms VersionEdit_new = Done ve' -> CallClear ∉ ms ->
     NumEntries ve' = (additions ms + size (deletions ms))%nat).
Proof.
  split; [reflexivity|]. split.
  - intros H. exists (emplace_back_new_file 2 f VersionEdit_new).
    rewrite AddFile_ordered by assumption. repeat split.
  - intros ve' H Hc. destruct (calls_entries _ _ _ H Hc) as [Hn Hd].
    unfold NumEntries. rewrite Hn, Hd. cbn. by rewrite union_empty_r_L.
Qed.

(* ================================================================== *)
(** * UpdateBoundaries *)

Lemma UpdateBoundaries_first ex k source f :
  boundaries_unset f = true ->
  smallest (UpdateBoundaries ex k source f) = derived_boundary ex k source /\
  largest (UpdateBoundaries ex k source f) = derived_boundary ex k source.
Proof. intros H. unfold UpdateBoundaries. rewrite H. split; reflexivity. Qed.

Lemma UpdateBoundaries_later ex k source f :
  boundaries_unset f = false ->
  smallest (UpdateBoundaries ex k source f) = smallest f /\
  largest (UpdateBoundaries ex k source f) = derived_boundary ex k source.
Proof. intros H. unfold UpdateBoundaries. rewrite H. split; reflexivity. Qed.

Lemma boundaries_set_after ex k source f :
  k <> [] -> boundaries_unset (UpdateBoundaries ex k source f) = false.
Proof.
  intros Hk. unfold UpdateBoundaries, boundaries_unset.
  destruct (key (smallest f)) eqn:E; cbn.
  - destruct k; [congruence | reflexivity].
  - rewrite E. reflexivity.
Qed.

Lemma UpdateBoundaries_all_later ex inputs : forall f,
  boundaries_unset f = false ->
  Forall (fun ks : InternalKey * FileBoundaryValuesBase => fst ks <> []) inputs ->
  smallest (UpdateBoundaries_all ex inputs f) = smallest f /\
  largest (UpdateBoundaries_all ex inputs f) =
    match last inputs with
    | Some (k, source) => derived_boundary ex k source
    | None => largest f
    end.
Proof.
  induction inputs as [|[k source] rest IH]; intros f Hf Hk; cbn.
  - split; reflexivity.
  - inversion Hk as [|? ? Hk1 Hk']; subst; cbn in Hk1.
    destruct (IH (UpdateBoundaries ex k source f)
                (boundaries_set_after ex k source f Hk1) Hk') as [Hs Hl].
    destruct (UpdateBoundaries_later ex k source f Hf) as [Hs1 Hl1].
    rewrite Hs, Hl, Hs1, Hl1, last_cons. split; [reflexivity|].
    destruct (last rest) as [[k' source']|]; reflexivity.
Qed.

(** C8.  On a [FileMetaData] whose boundaries no call has set yet, feeding
    one or more (non-empty) keys to [UpdateBoundaries] leaves the smallest
    boundary equal to the boundary derived from the first key and the largest
    boundary equal to the boundary derived from the last key; the first call
    sets both from its key.  The function compares no keys, so this holds in
    particular for keys given in sorted order. *)
Theorem UpdateBoundaries_first_and_last
    (ex : BoundaryValuesExtractor) (f : FileMetaData)
    (inputs : list (InternalKey * FileBoundaryValuesBase))
    (k1 kn : InternalKey) (s1 sn : FileBoundaryValuesBase) :
  boundaries_unset f = true ->
  Forall (fun ks : InternalKey * FileBoundaryValuesBase => fst ks <> []) inputs ->
  head inputs = Some (k1, s1) ->
  last inputs = Some (kn, sn) ->
  smallest (UpdateBoundaries_all ex inputs f) = derived_boundary ex k1 s1 /\
  largest (UpdateBoundaries_all ex inputs f) = derived_boundary ex kn sn /\
  smallest (UpdateBoundaries ex k1 s1 f) = derived_boundary ex k1 s1 /\
  largest (UpdateBoundaries ex k1 s1 f) = derived_boundary ex k1 s1.
Proof.
  intros Hf Hk Hhead Hlast.
  destruct inputs as [|[k source] rest]; [discriminate|].
  cbn in Hhead. injection Hhead as -> ->.
  inversion Hk as [|? ? Hk1 Hk']; subst; cbn in Hk1.
  destruct (UpdateBoundaries_first ex k1 s1 f Hf) as [Hs1 Hl1].
  destruct (UpdateBoundaries_all_later ex rest (UpdateBoundaries ex k1 s1 f)
              (boundaries_set_after ex k1 s1 f Hk1) Hk') as [Hs Hl].
  cbn [UpdateBoundaries_all]. rewrite Hs, Hl, Hs1, Hl1.
  repeat split.
  rewrite last_cons in Hlast.
  destruct (last rest) as [[k' source']|]; by injection Hlast as -> ->.
Qed.

Lemma sorted_below_last (le : relation InternalKey) (keys : list InternalKey)
    (z : InternalKey) :
  Reflexive le -> StronglySorted le keys -> last keys = Some z ->
  Forall (fun k => le k z) keys.
Proof.
  intros Hrefl Hs. revert z.
  induction Hs as [|k keys Hs IH Hk]; intros z Hlast; [constructor|].
  rewrite last_cons in Hlast.
  destruct (last keys) as [z'|] eqn:E.
  - injection Hlast as ->. constructor; [|by apply IH].
    assert (z ∈ keys) as Hin by (apply last_Some_elem_of; exact E).
    by apply (proj1 (Forall_forall _ _) Hk).
  - injection Hlast as ->. apply last_None in E as ->.
    constructor; [apply Hrefl | constructor].
Qed.

(** What the sorted order of the REQUIRED clause buys: when the keys come in
    non-decreasing order of a preorder [le], the smallest boundary holds a
    least and the largest boundary a greatest key among those fed. *)
Lemma UpdateBoundaries_sorted_bounds
    (ex : BoundaryValuesExtractor) (f : FileMetaData)
    (inputs : list (InternalKey * FileBoundaryValuesBase))
    (le : relation InternalKey) :
  Reflexive le -> Transitive le ->
  boundaries_unset f = true ->
  Forall (fun ks : InternalKey * FileBoundaryValuesBase => fst ks <> []) inputs ->
  Sorted le (map fst inputs) ->
  Forall (fun ks : InternalKey * FileBoundaryValuesBase =>
            le (key (smallest (UpdateBoundaries_all ex inputs f))) (fst ks) /\
            le (fst ks) (key (largest (UpdateBoundaries_all ex inputs f))))
         inputs.
Proof.
  intros Hrefl Htrans Hf Hk Hsorted.
  destruct inputs as [|[k1 s1] rest]; [constructor|].
  inversion Hk as [|? ? Hk1 Hk']; subst; cbn in Hk1.
  destruct (UpdateBoundaries_first ex k1 s1 f Hf) as [Hs1 Hl1].
  destruct (UpdateBoundaries_all_later ex rest (UpdateBoundaries ex k1 s1 f)
              (boundaries_set_after ex k1 s1 f Hk1) Hk') as [Hs Hl].
  cbn [UpdateBoundaries_all]. rewrite Hs, Hl, Hs1, Hl1.
  apply Sorted_StronglySorted in Hsorted; [|assumption].
  assert (exists kn sn, last ((k1, s1) :: rest) = Some (kn, sn) /\
            match last rest with
            | Some (k, source) => derived_boundary ex k source
            | None => derived_boundary ex k1 s1
            end = derived_boundary ex kn sn) as (kn & sn & Hlast & ->).
  { rewrite last_cons. destruct (last rest) as [[k s]|]; eauto. }
  cbn [derived_boundary key].
  assert (last (map fst ((k1, s1) :: rest)) = Some kn) as Hlastk.
  { change (map fst ((k1, s1) :: rest)) with (fst <$> ((k1, s1) :: rest)).
    by rewrite fmap_last, Hlast. }
  pose proof (sorted_below_last le _ kn Hrefl Hsorted Hlastk) as Hup.
  inversion Hsorted as [|? ? _ Hlow]; subst.
  assert (Forall (fun k => le k1 k) (map fst ((k1, s1) :: rest))) as Hlow'.
  { cbn. constructor; [apply Hrefl | assumption]. }
  clear - Hup Hlow'.
  induction ((k1, s1) :: rest) as [|ks l IH]; [constructor|].
  cbn in Hup, Hlow'. inversion Hup; inversion Hlow'; subst.
  constructor; [split; assumption | by apply IH].
Qed.

(* ================================================================== *)
(** * The wire form: every codec decodes what it encodes and rejects a cut
      encoding *)

Lemma to_N_byte_of_N (n : N) : (n < 256)%N -> Byte.to_N (Wire.byte_of_N n) = n.
Proof.
  intros H. unfold Wire.byte_of_N.
  destruct (Byte.of_N n) as [b|] eqn:E.
  - by apply Byte.to_of_N.
  - apply Byte.of_N_None_iff in E. lia.
Qed.

(** Two ways to split one list: the cut falls inside the first part, or at
    its end or later. *)
Lemma app_cut {A : Type} (a b p q : list A) :
  a ++ b = p ++ q -> q <> [] ->
  (exists q', a = p ++ q' /\ q' <> []) \/ (exists p', p = a ++ p' /\ b = p' ++ q).
Proof.
  intros H Hq. apply List.app_eq_app in H as [l [[-> ->] | [-> ->]]].
  - destruct l as [|x l].
    + right. exists []. by rewrite !app_nil_r.
    + left. by exists (x :: l).
  - right. by exists l.
Qed.

Lemma pow128_succ (g : nat) :
  (2 ^ (7 * N.of_nat (S g)) = 128 * 2 ^ (7 * N.of_nat g))%N.
Proof.
  rewrite Nat2N.inj_succ, N.mul_succ_r, N.pow_add_r. rewrite N.mul_comm. reflexivity.
Qed.

Lemma dec_enc_varint_groups (g : nat) : forall n rest,
  (n < 2 ^ (7 * N.of_nat g))%N -> g <> O ->
  Wire.dec_varint (Wire.enc_varint_groups g n ++ rest) = Some (n, rest).
Proof.
  induction g as [|g IH]; intros n rest Hn Hg; [congruence|].
  cbn [Wire.enc_varint_groups].
  destruct (N.ltb_spec n 128%N) as [Hlt | Hge].
  - cbn. rewrite to_N_byte_of_N by lia.
    destruct (N.ltb_spec n 128%N); [reflexivity | lia].
  - rewrite pow128_succ in Hn.
    assert (n / 128 < 2 ^ (7 * N.of_nat g))%N as Hq
      by (apply N.Div0.div_lt_upper_bound; lia).
    assert (g <> O) as Hg'.
    { intros ->. cbn in Hq. apply N.lt_1_r in Hq.
      apply N.div_small_iff in Hq; lia. }
    pose proof (N.mod_lt n 128%N ltac:(lia)) as Hr.
    pose proof (N.div_mod n 128%N ltac:(lia)) as Hdm.
    cbn [app Wire.dec_varint]. rewrite (IH _ rest Hq Hg').
    clear IH Hq Hn.
    remember (n mod 128)%N as r. remember (n / 128)%N as q.
    rewrite to_N_byte_of_N by lia.
    destruct (N.ltb_spec (128 + r)%N 128%N); [exfalso; lia|].
    f_equal. f_equal. lia.
Qed.

Lemma varint_groups_enough (n : N) :
  (n < 2 ^ (7 * N.of_nat (S (N.to_nat (N.log2 n)))))%N.
Proof.
  rewrite Nat2N.inj_succ, N2Nat.id.
  destruct (N.eq_dec n 0%N) as [-> | Hn]; [reflexivity|].
  apply N.lt_le_trans with (2 ^ N.succ (N.log2 n))%N.
  - apply N.log2_spec. lia.
  - apply N.pow_le_mono_r; lia.
Qed.

Lemma dec_cut_varint_groups (g : nat) : forall n p q,
  Wire.enc_varint_groups g n = p ++ q -> q <> [] -> Wire.dec_varint p = None.
Proof.
  induction g as [|g IH]; intros n p q H Hq; cbn in H.
  - symmetry in H. apply app_eq_nil in H as [_ ->]. congruence.
  - destruct p as [|b p]; [reflexivity|].
    destruct (N.ltb_spec n 128%N) as [Hlt | Hge].
    + injection H as _ H. symmetry in H. apply app_eq_nil in H as [_ ->]. congruence.
    + injection H as <- H.
      pose proof (N.mod_lt n 128%N ltac:(lia)) as Hr.
      cbn [Wire.dec_varint]. rewrite (IH _ _ _ H Hq).
      remember (n mod 128)%N as r.
      rewrite to_N_byte_of_N by lia.
      destruct (N.ltb_spec (128 + r)%N 128%N); [exfalso; lia | reflexivity].
Qed.

Lemma varint_lawful : lawful Wire.varint.
Proof.
  split; unfold Wire.varint; cbn [Wire.enc Wire.dec]; unfold Wire.enc_varint.
  - intros n rest. apply dec_enc_varint_groups; [apply varint_groups_enough | lia].
  - intros n p q. apply dec_cut_varint_groups.
Qed.

Lemma conv_lawful {A B : Type} (to : A -> B) (from : B -> A) (c : Wire.codec B) :
  (forall a, from (to a) = a) -> lawful c -> lawful (Wire.conv to from c).
Proof.
  intros Hinv [Hde Hcut]. split; cbn.
  - intros a rest. by rewrite Hde, Hinv.
  - intros a p q H Hq. by rewrite (Hcut _ _ _ H Hq).
Qed.

Lemma unzigzag_zigzag (z : Z) : Wire.unzigzag (Wire.zigzag z) = z.
Proof.
  unfold Wire.unzigzag, Wire.zigzag.
  destruct (Z.ltb_spec z 0).
  - replace (Z.to_N (- 2 * z - 1)) with (1 + 2 * Z.to_N (- z - 1))%N by lia.
    rewrite N.even_add_mul_2. cbn [N.even].
    replace ((1 + 2 * Z.to_N (- z - 1)) / 2)%N with (Z.to_N (- z - 1)); [lia|].
    apply N.div_unique with (r := 1%N); lia.
  - replace (Z.to_N (2 * z)) with (0 + 2 * Z.to_N z)%N by lia.
    rewrite N.even_add_mul_2. cbn [N.even].
    replace ((0 + 2 * Z.to_N z) / 2)%N with (Z.to_N z); [lia|].
    apply N.div_unique with (r := 0%N); lia.
Qed.

Lemma sint_lawful : lawful Wire.sint.
Proof. apply conv_lawful; [apply unzigzag_zigzag | apply varint_lawful]. Qed.

Lemma flag_lawful : lawful Wire.flag.
Proof.
  split; cbn.
  - intros [] rest; reflexivity.
  - intros b [|c p] q H Hq; [reflexivity|].
    destruct b; injection H as _ H; symmetry in H;
      apply app_eq_nil in H as [_ ->]; congruence.
Qed.

Lemma blob_lawful : lawful Wire.blob.
Proof.
  destruct varint_lawful as [Hde Hcut]. cbn in Hde, Hcut.
  split; cbn.
  - intros bs rest. rewrite <- app_assoc, Hde.
    rewrite length_app.
    destruct (N.leb_spec (N.of_nat (length bs)) (N.of_nat (length bs + length rest)));
      [|lia].
    by rewrite Nat2N.id, take_app_length, drop_app_length.
  - intros bs p q H Hq.
    destruct (app_cut _ _ _ _ H Hq) as [(q' & H' & Hq') | (p' & -> & H')]; clear H.
    + by rewrite (Hcut _ _ _ H' Hq').
    + rewrite Hde. subst bs. rewrite length_app.
      destruct (N.leb_spec (N.of_nat (length p' + length q)) (N.of_nat (length p')));
        [|reflexivity].
      destruct q; [congruence | cbn in *; lia].
Qed.

Lemma text_lawful : lawful Wire.text.
Proof.
  apply conv_lawful; [apply string_of_list_byte_of_string | apply blob_lawful].
Qed.

Lemma couple_lawful {A B : Type} (ca : Wire.codec A) (cb : Wire.codec B) :
  lawful ca -> lawful cb -> lawful (Wire.couple ca cb).
Proof.
  intros [Hde1 Hcut1] [Hde2 Hcut2]. split; cbn.
  - intros [a b] rest; cbn. by rewrite <- app_assoc, Hde1, Hde2.
  - intros [a b] p q H Hq; cbn in H.
    destruct (app_cut _ _ _ _ H Hq) as [(q' & H' & Hq') | (p' & -> & H')]; clear H.
    + by rewrite (Hcut1 _ _ _ H' Hq').
    + by rewrite Hde1, (Hcut2 _ _ _ H' Hq).
Qed.

Lemma optional_lawful {A : Type} (c : Wire.codec A) :
  lawful c -> lawful (Wire.optional c).
Proof.
  intros [Hde Hcut]. split; cbn.
  - intros [a|] rest; cbn; [by rewrite Hde | reflexivity].
  - intros o [|b p] q H Hq; [reflexivity|].
    destruct o as [a|]; injection H as <- H.
    + by rewrite (Hcut _ _ _ H Hq).
    + symmetry in H. apply app_eq_nil in H as [_ ->]. congruence.
Qed.

Lemma dec_enc_items {A : Type} (c : Wire.codec A) (l : list A) :
  lawful c -> forall rest,
  Wire.dec_items c (length l) (concat (map (Wire.enc c) l) ++ rest) = Some (l, rest).
Proof.
  intros [Hde _]. induction l as [|a l IH]; intros rest; cbn; [reflexivity|].
  by rewrite <- app_assoc, Hde, IH.
Qed.

Lemma dec_cut_items {A : Type} (c : Wire.codec A) (l : list A) :
  lawful c -> forall p q,
  concat (map (Wire.enc c) l) = p ++ q -> q <> [] ->
  Wire.dec_items c (length l) p = None.
Proof.
  intros [Hde Hcut]. induction l as [|a l IH]; intros p q H Hq; cbn in *.
  - symmetry in H. apply app_eq_nil in H as [_ ->]. congruence.
  - destruct (app_cut _ _ _ _ H Hq) as [(q' & H' & Hq') | (p' & -> & H')]; clear H.
    + by rewrite (Hcut _ _ _ H' Hq').
    + by rewrite Hde, (IH _ _ H' Hq).
Qed.

Lemma repeated_lawful {A : Type} (c : Wire.codec A) :
  lawful c -> lawful (Wire.repeated c).
Proof.
  intros Hc. destruct varint_lawful as [Hde Hcut]. cbn in Hde, Hcut.
  split; cbn.
  - intros l rest. rewrite <- app_assoc, Hde, Nat2N.id. by apply dec_enc_items.
  - intros l p q H Hq.
    destruct (app_cut _ _ _ _ H Hq) as [(q' & H' & Hq') | (p' & -> & H')]; clear H.
    + by rewrite (Hcut _ _ _ H' Hq').
    + rewrite Hde, Nat2N.id. by apply (dec_cut_items c l Hc p' q).
Qed.

Lemma parse_enc {A : Type} (c : Wire.codec A) (x : A) :
  lawful c -> Wire.parse c (Wire.enc c x) = Some x.
Proof.
  intros [Hde _]. unfold Wire.parse.
  rewrite <- (app_nil_r (Wire.enc c x)). by rewrite Hde.
Qed.

Lemma parse_cut {A : Type} (c : Wire.codec A) (x : A) (p q : list byte) :
  lawful c -> Wire.enc c x = p ++ q -> q <> [] -> Wire.parse c p = None.
Proof.
  intros [_ Hcut] H Hq. unfold Wire.parse. by rewrite (Hcut _ _ _ H Hq).
Qed.

Lemma op_id_lawful : lawful MessageCodec.op_id.
Proof.
  apply conv_lawful; [by intros [] | apply couple_lawful; apply sint_lawful].
Qed.

Lemma boundary_lawful : lawful MessageCodec.boundary.
Proof.
  apply conv_lawful; [by intros [] |].
  repeat apply couple_lawful; auto using blob_lawful, varint_lawful.
Qed.

Lemma new_file_lawful : lawful MessageCodec.new_file.
Proof.
  apply conv_lawful; [by intros [] |].
  repeat apply couple_lawful;
    auto using sint_lawful, varint_lawful, flag_lawful, op_id_lawful,
               optional_lawful, boundary_lawful.
Qed.

Lemma deleted_file_lawful : lawful MessageCodec.deleted_file.
Proof.
  apply conv_lawful; [by intros [] |].
  apply couple_lawful; [apply sint_lawful | apply varint_lawful].
Qed.

Lemma version_edit_lawful : lawful MessageCodec.version_edit.
Proof.
  apply conv_lawful; [by intros [] |].
  repeat apply couple_lawful;
    auto using varint_lawful, flag_lawful, op_id_lawful, text_lawful,
               optional_lawful, repeated_lawful, new_file_lawful, deleted_file_lawful.
Qed.

(** The message parser gives back every serialized message and rejects
    every serialized message that lost its end. *)
Lemma ParseFromArray_SerializeToString (m : VersionEditPB) :
  MessageCodec.ParseFromArray (MessageCodec.SerializeToString m) = Some m.
Proof. apply parse_enc, version_edit_lawful. Qed.

Lemma ParseFromArray_cut (m : VersionEditPB) (p q : list byte) :
  MessageCodec.SerializeToString m = p ++ q -> q <> [] ->
  MessageCodec.ParseFromArray p = None.
Proof. apply parse_cut, version_edit_lawful. Qed.

Lemma SerializeToString_nonempty (m : VersionEditPB) :
  MessageCodec.SerializeToString m <> [].
Proof.
  unfold MessageCodec.SerializeToString; cbn.
  destruct (pb_comparator m); discriminate.
Qed.


(* ================================================================== *)
(** * Records built through the mutators *)

Ltac split_all := repeat match goal with |- _ /\ _ => split end.

Lemma is_uint64_0 : is_uint64 0.
Proof. unfold is_uint64. lia. Qed.

Lemma is_int64_to_int64 (z : Z) : is_int64 (to_int64 z).
Proof.
  unfold is_int64, to_int64.
  pose proof (Z.mod_pos_bound (z + 2 ^ 63) (2 ^ 64) ltac:(lia)). lia.
Qed.

Lemma well_typed_cleaned (f : FileMetaData) :
  well_typed_file f -> well_typed_file (cleaned f).
Proof.
  unfold well_typed_file, well_typed_fd.
  intros (_ & Hfd & Hlo & Hhi & Hop & _). cbn.
  repeat split; try apply Hfd; try apply Hop; try assumption;
    try apply is_uint64_0; unfold is_int32, is_uint64 in *; lia.
Qed.

Lemma well_typed_test_file d (lo hi : BoundaryValues) marked :
  well_typed_fd d -> is_uint64 (seqno lo) -> is_uint64 (seqno hi) ->
  well_typed_file (test_file d lo hi marked).
Proof.
  unfold well_typed_file, well_typed_fd, well_typed_op_id.
  intros Hfd Hlo Hhi. cbn.
  repeat split; try apply Hfd; try assumption; try apply is_uint64_0;
    try apply is_int64_to_int64; unfold is_int32, is_int64, is_uint64 in *; lia.
Qed.

Lemma built_invariant_new : built_invariant VersionEdit_new.
Proof.
  unfold built_invariant, well_typed_edit, well_typed_op_id, is_uint32, is_int64; cbn.
  split_all; try exact I; try (intros d Hd; by apply not_elem_of_empty in Hd);
    try apply Forall_nil; lia.
Qed.

Lemma built_invariant_emplace_back level f ve :
  built_invariant ve -> is_int32 level -> well_typed_file f ->
  seqno (smallest f) <= seqno (largest f) ->
  built_invariant (emplace_back_new_file level f ve).
Proof.
  unfold built_invariant, well_typed_edit.
  intros ((H1 & H2 & H3 & H4 & H5 & H6 & H7 & H8 & H9) & Hmax & Hord) Hl Hf Ho. cbn.
  split_all; try assumption.
  - apply Forall_app. split; [assumption|].
    constructor; [by split | constructor].
  - apply Forall_app. split; [assumption|].
    constructor; [assumption | constructor].
Qed.

Lemma AddColumnFamily_inv name ve ve' :
  AddColumnFamily name ve = Done ve' ->
  ve' = mkVersionEdit (max_level_ ve) (comparator_ ve) (log_number_ ve)
          (prev_log_number_ ve) (next_file_number_ ve) (max_column_family_ ve)
          (last_sequence_ ve) (flushed_op_id_ ve) (deleted_files_ ve) (new_files_ ve)
          (column_family_ ve) (is_column_family_drop_ ve) (Some name).
Proof.
  unfold AddColumnFamily. rewrite has_value_column_family_name.
  destruct (is_column_family_drop_ ve); [discriminate|].
  destruct (IsColumnFamilyAdd ve); [discriminate|].
  destruct (NumEntries ve =? 0)%nat; [|discriminate].
  cbn. by intros [= <-].
Qed.

Lemma DropColumnFamily_inv ve ve' :
  DropColumnFamily ve = Done ve' ->
  ve' = mkVersionEdit (max_level_ ve) (comparator_ ve) (log_number_ ve)
          (prev_log_number_ ve) (next_file_number_ ve) (max_column_family_ ve)
          (last_sequence_ ve) (flushed_op_id_ ve) (deleted_files_ ve) (new_files_ ve)
          (column_family_ ve) true (column_family_name_ ve).
Proof.
  unfold DropColumnFamily. rewrite has_value_column_family_name.
  destruct (is_column_family_drop_ ve); [discriminate|].
  destruct (IsColumnFamilyAdd ve); [discriminate|].
  destruct (NumEntries ve =? 0)%nat; [|discriminate].
  cbn. by intros [= <-].
Qed.

Lemma call_invariant m ve ve' :
  built_invariant ve -> well_typed_call m -> call m ve = Done ve' ->
  built_invariant ve'.
Proof.
  intros Hinv Hm Hcall.
  destruct m; cbn in Hcall, Hm;
    try (injection Hcall as <-);
    try (unfold built_invariant, well_typed_edit in *; cbn;
         destruct Hinv as ((H1 & H2 & H3 & H4 & H5 & H6 & H7 & H8 & H9) & Hmax & Hord);
         by split_all).
  - destruct Hm as (Hl & Hd & Hlo & Hhi).
    apply AddTestFile_done in Hcall as [Ho ->].
    apply built_invariant_emplace_back; auto using well_typed_test_file.
  - destruct Hm as (Hl & Hf).
    apply AddFile_done in Hcall as [Ho ->].
    by apply built_invariant_emplace_back.
  - destruct Hm as (Hl & Hf).
    apply AddCleanedFile_done in Hcall as [Ho ->].
    apply built_invariant_emplace_back; auto using well_typed_cleaned.
  - destruct Hm as (Hl & Hf).
    unfold built_invariant, well_typed_edit in *; cbn.
    destruct Hinv as ((H1 & H2 & H3 & H4 & H5 & H6 & H7 & H8 & H9) & Hmax & Hord).
    split_all; try assumption.
    intros d [->%elem_of_singleton | Hd]%elem_of_union; [by split | by apply H7].
  - apply AddColumnFamily_inv in Hcall as ->.
    unfold built_invariant, well_typed_edit in *; cbn.
    destruct Hinv as ((H1 & H2 & H3 & H4 & H5 & H6 & H7 & H8 & H9) & Hmax & Hord).
    by split_all.
  - apply DropColumnFamily_inv in Hcall as ->.
    unfold built_invariant, well_typed_edit in *; cbn.
    destruct Hinv as ((H1 & H2 & H3 & H4 & H5 & H6 & H7 & H8 & H9) & Hmax & Hord).
    by split_all.
Qed.

Lemma calls_invariant ms : forall ve ve',
  built_invariant ve -> Forall well_typed_call ms -> calls ms ve = Done ve' ->
  built_invariant ve'.
Proof.
  induction ms as [|m ms IH]; intros ve ve' Hinv Hms Hcalls; cbn in Hcalls.
  - by injection Hcalls as <-.
  - inversion Hms as [|? ? Hm Hms']; subst.
    destruct (call m ve) as [ve1|] eqn:E; [|discriminate]. cbn in Hcalls.
    eapply IH; [|eassumption..]. eapply call_invariant; eassumption.
Qed.

(* ================================================================== *)
(** * Encode, then decode *)

Section RoundTrip.

Variable ex : BoundaryValuesExtractor.

(** The extractor reads back the serialized form of every auxiliary value. *)
Hypothesis ex_reads_back :
  forall (k : InternalKey) (a : Aux),
    decode_user_values ex k (user_values_bytes a) = Some a.

Lemma op_id_of_to_pb (o : OpId) : op_id_of_pb (op_id_to_pb o) = o.
Proof. by destruct o. Qed.

Lemma decode_boundary_to_pb (b : BoundaryValues) :
  is_uint64 (seqno b) -> decode_boundary ex (Some (boundary_to_pb b)) = Some b.
Proof.
  intros [H _]. destruct b as [k [s a]]; cbn in *.
  rewrite ex_reads_back. by rewrite Z2N.id.
Qed.

Lemma decode_new_file_to_pb (lf : Z * FileMetaData) :
  well_typed_file (snd lf) ->
  seqno (smallest (snd lf)) <= seqno (largest (snd lf)) ->
  decode_new_file ex (new_file_to_pb lf) = Some (fst lf, recovered_file (snd lf)).
Proof.
  destruct lf as [level f]; cbn [fst snd].
  intros (_ & (Hp & Ht & Hb) & Hlo & Hhi & _ & Hc & Hn & Hd & Hk & Hv) Hord.
  unfold decode_new_file, new_file_to_pb;
    cbn [pb_smallest pb_largest pb_packed_number_and_path_id pb_level
         pb_total_file_size pb_base_file_size pb_last_op_id pb_imported
         pb_compensated_file_size pb_num_entries pb_num_deletions pb_raw_key_size
         pb_raw_value_size pb_init_stats_from_file pb_marked_for_compaction].
  rewrite !decode_boundary_to_pb by assumption.
  destruct (Z.leb_spec (seqno (smallest f)) (seqno (largest f))); [|lia].
  unfold is_uint64 in *.
  destruct (N.ltb_spec (Z.to_N (packed_number_and_path_id (fd f))) (2 ^ 64)%N); [|lia].
  cbn [andb]. unfold recovered_file, set_table_reader.
  rewrite op_id_of_to_pb, !Z2N.id by lia. reflexivity.
Qed.

Lemma decode_new_files_to_pb (files : list (Z * FileMetaData)) :
  Forall (fun lf : Z * FileMetaData => is_int32 (fst lf) /\ well_typed_file (snd lf)) files ->
  Forall (fun lf : Z * FileMetaData =>
            seqno (smallest (snd lf)) <= seqno (largest (snd lf))) files ->
  decode_new_files ex (map new_file_to_pb files) =
  Some (map (fun lf : Z * FileMetaData => (fst lf, recovered_file (snd lf))) files).
Proof.
  induction files as [|lf files IH]; intros Ht Ho; [reflexivity|].
  inversion Ht as [|? ? [_ Hf] Ht']; inversion Ho as [|? ? Hlf Ho']; subst.
  cbn [map decode_new_files].
  by rewrite decode_new_file_to_pb, IH.
Qed.

Lemma well_typed_option_back (o : option Z) :
  match o with Some z => 0 <= z | None => True end ->
  Z.of_N <$> (Z.to_N <$> o) = o.
Proof. destruct o as [z|]; cbn; [|done]. intros H. by rewrite Z2N.id. Qed.

Lemma deleted_files_back (s : gset (Z * Z)) :
  (forall d : Z * Z, d ∈ s -> is_int32 (fst d) /\ is_uint64 (snd d)) ->
  list_to_set (map deleted_file_of_pb (map deleted_file_to_pb (elements s))) = s.
Proof.
  intros H. rewrite List.map_map.
  rewrite (List.map_ext_in _ id), List.map_id; [apply list_to_set_elements_L|].
  intros [level file] Hin.
  apply list_elem_of_In, elem_of_elements, H in Hin as [_ [Hfile _]].
  unfold deleted_file_of_pb, deleted_file_to_pb; cbn in *. by rewrite Z2N.id.
Qed.

Lemma lifecycle_exclusive_recovered (ve : VersionEdit) :
  lifecycle_exclusive (recovered ve) = lifecycle_exclusive ve.
Proof.
  unfold lifecycle_exclusive, IsColumnFamilyManipulation, IsColumnFamilyAdd,
    NumEntries; cbn.
  by rewrite length_map.
Qed.

Lemma DecodeFrom_parsed (src : list byte) (pb : VersionEditPB)
    (files : list (Z * FileMetaData)) :
  MessageCodec.ParseFromArray src = Some pb ->
  decode_new_files ex (pb_new_files pb) = Some files ->
  lifecycle_exclusive (edit_of_pb pb files) = true ->
  DecodeFrom ex src = Decoded (edit_of_pb pb files).
Proof.
  intros Hparse Hfiles Hlife. unfold DecodeFrom.
  rewrite Hparse, Hfiles. cbv zeta. by rewrite Hlife.
Qed.

Lemma decode_encoded (ve : VersionEdit) (pb : VersionEditPB) :
  built_invariant ve -> EncodeTo ve = Some pb ->
  DecodeFrom ex (MessageCodec.SerializeToString pb) = Decoded (recovered ve).
Proof.
  intros ((H1 & H2 & H3 & H4 & H5 & H6 & H7 & H8 & H9) & Hmax & Hord).
  unfold EncodeTo. destruct (lifecycle_exclusive ve) eqn:Hlife; [|discriminate].
  intros [= <-].
  assert (forall o, well_typed_option o -> Z.of_N <$> (Z.to_N <$> o) = o) as Hopt.
  { intros o Ho. apply well_typed_option_back.
    destruct o; [apply Ho | exact I]. }
  assert (Z.of_N <$> (Z.to_N <$> max_column_family_ ve) = max_column_family_ ve)
    as Hmcf.
  { apply well_typed_option_back. revert H4.
    destruct (max_column_family_ ve); [by intros [? _] | done]. }
  match goal with
  | |- DecodeFrom ex (MessageCodec.SerializeToString ?m) = _ =>
      assert (edit_of_pb m
                (map (fun lf : Z * FileMetaData => (fst lf, recovered_file (snd lf)))
                     (new_files_ ve)) = recovered ve) as Hback
  end.
  { unfold edit_of_pb, recovered; cbn.
    rewrite (Hopt _ H1), (Hopt _ H2), (Hopt _ H3), (Hopt _ H5), Hmcf.
    rewrite (deleted_files_back _ H7).
    destruct H8 as [H8 _]. rewrite (Z2N.id _ H8).
    rewrite op_id_of_to_pb. by rewrite Hmax. }
  rewrite <- Hback. apply DecodeFrom_parsed.
  - apply ParseFromArray_SerializeToString.
  - cbn [pb_new_files]. by apply decode_new_files_to_pb.
  - by rewrite Hback, lifecycle_exclusive_recovered.
Qed.

(** C1.  Let [E] be a record built from a fresh one by calls of the public
    mutators with arguments of their C++ types, and well formed: its
    lifecycle fields exclude each other and file entries.  Then
    [AppendEncodedTo] succeeds and appends some bytes to its buffer, and
    [DecodeFrom], given an extractor that reads auxiliary values back,
    succeeds on these bytes and yields [E] itself up to the transient fields:
    the same optional fields present with the same values, the same flushed
    op id, deletion set, column family fields, and the same files in the same
    order, each with [refs], table reader, reader handle and
    [being_compacted] at their defaults. *)
Theorem encode_decode_round_trip (ms : list mutation) (E : VersionEdit) :
  Forall well_typed_call ms ->
  calls ms VersionEdit_new = Done E ->
  lifecycle_exclusive E = true ->
  exists bytes,
    (forall dst, AppendEncodedTo E dst = (true, dst ++ bytes)) /\
    DecodeFrom ex bytes = Decoded (recovered E).
Proof.
  intros Hms Hcalls Hlife.
  pose proof (calls_invariant ms _ _ built_invariant_new Hms Hcalls) as Hinv.
  unfold AppendEncodedTo.
  destruct (EncodeTo E) as [pb|] eqn:Henc.
  - exists (MessageCodec.SerializeToString pb). split; [reflexivity|].
    by apply decode_encoded.
  - unfold EncodeTo in Henc. by rewrite Hlife in Henc.
Qed.

End RoundTrip.

(* ================================================================== *)
(** * Decoding corrupted input *)

Section Corruption.

Variable ex : BoundaryValuesExtractor.

Lemma AppendEncodedTo_true (ve : VersionEdit) (bytes : list byte) :
  AppendEncodedTo ve [] = (true, bytes) ->
  exists pb, EncodeTo ve = Some pb /\ bytes = MessageCodec.SerializeToString pb.
Proof.
  unfold AppendEncodedTo. destruct (EncodeTo ve) as [pb|]; [|discriminate].
  intros [= <-]. by exists pb.
Qed.

Lemma DecodeFrom_unparsed (src : list byte) :
  MessageCodec.ParseFromArray src = None -> DecodeFrom ex src = Corruption.
Proof. intros H. unfold DecodeFrom. by rewrite H. Qed.

Lemma DecodeFrom_bad_file (src : list byte) (pb : VersionEditPB) :
  MessageCodec.ParseFromArray src = Some pb ->
  decode_new_files ex (pb_new_files pb) = None ->
  DecodeFrom ex src = Corruption.
Proof. intros H1 H2. unfold DecodeFrom. by rewrite H1, H2. Qed.

Lemma decode_new_files_length (pbs : list NewFilePB) : forall files,
  decode_new_files ex pbs = Some files -> length files = length pbs.
Proof.
  induction pbs as [|pb pbs IH]; intros files H; cbn in H.
  - by injection H as <-.
  - destruct (decode_new_file ex pb); [|discriminate].
    destruct (decode_new_files ex pbs) as [files'|]; [|discriminate].
    injection H as <-. cbn. by rewrite (IH files').
Qed.

Lemma decode_new_files_rejects (pbs : list NewFilePB) (pb : NewFilePB) :
  pb ∈ pbs -> decode_new_file ex pb = None -> decode_new_files ex pbs = None.
Proof.
  intros Hin Hpb. induction Hin as [pb pbs | pb pb' pbs Hin IH]; cbn.
  - by rewrite Hpb.
  - rewrite (IH Hpb). by destruct (decode_new_file ex pb').
Qed.

Lemma decode_new_file_missing_boundary (pb : NewFilePB) :
  pb_smallest pb = None \/ pb_largest pb = None -> decode_new_file ex pb = None.
Proof.
  unfold decode_new_file. intros [-> | ->]; cbn; [reflexivity|].
  by destruct (decode_boundary ex (pb_smallest pb)).
Qed.

Lemma decode_boundary_seqno (field : option BoundaryValuesPB) (b : BoundaryValues) :
  decode_boundary ex field = Some b ->
  exists m, field = Some m /\ seqno b = Z.of_N (pb_seqno m).
Proof.
  destruct field as [m|]; cbn; [|discriminate].
  destruct (decode_user_values ex (pb_key m) (pb_user_values m)); [|discriminate].
  intros [= <-]. by exists m.
Qed.

Lemma decode_new_file_unordered (pb : NewFilePB) (lo hi : BoundaryValuesPB) :
  pb_smallest pb = Some lo -> pb_largest pb = Some hi ->
  (pb_seqno hi < pb_seqno lo)%N ->
  decode_new_file ex pb = None.
Proof.
  intros Hlo Hhi Hlt. unfold decode_new_file.
  destruct (decode_boundary ex (pb_smallest pb)) as [blo|] eqn:Elo; [|reflexivity].
  destruct (decode_boundary ex (pb_largest pb)) as [bhi|] eqn:Ehi; [|reflexivity].
  apply decode_boundary_seqno in Elo as (lo' & Hlo' & ->).
  apply decode_boundary_seqno in Ehi as (hi' & Hhi' & ->).
  assert (lo' = lo) as -> by congruence. assert (hi' = hi) as -> by congruence.
  destruct (Z.leb_spec (Z.of_N (pb_seqno lo)) (Z.of_N (pb_seqno hi))); [lia|].
  reflexivity.
Qed.

Lemma decode_new_file_wide_identity (pb : NewFilePB) :
  (2 ^ 64 <= pb_packed_number_and_path_id pb)%N -> decode_new_file ex pb = None.
Proof.
  intros H. unfold decode_new_file.
  destruct (decode_boundary ex (pb_smallest pb)); [|reflexivity].
  destruct (decode_boundary ex (pb_largest pb)); [|reflexivity].
  destruct (N.ltb_spec (pb_packed_number_and_path_id pb) (2 ^ 64)%N); [lia|].
  by rewrite andb_false_r.
Qed.

Lemma lifecycle_conflict_rejected (pb : VersionEditPB) (files : list (Z * FileMetaData)) :
  lifecycle_conflict pb -> length files = length (pb_new_files pb) ->
  lifecycle_exclusive (edit_of_pb pb files) = false.
Proof.
  intros Hc Hlen.
  unfold lifecycle_exclusive, IsColumnFamilyManipulation, IsColumnFamilyAdd,
    NumEntries; cbn.
  destruct Hc as [[[name Hn] Hd] | [Hl He]].
  - by rewrite Hn, Hd.
  - assert ((length files +
             size (list_to_set (map deleted_file_of_pb (pb_deleted_files pb))
                   : gset (Z * Z)))%nat <> 0%nat) as Hne.
    { destruct He as [He | He].
      - destruct (pb_new_files pb); [congruence|]. cbn in Hlen. lia.
      - destruct (pb_deleted_files pb) as [|d ds]; [congruence|]. cbn.
        pose proof (size_insert_pos (deleted_file_of_pb d)
                      (list_to_set (map deleted_file_of_pb ds))). lia. }
    destruct (Nat.eqb_spec
                (length files +
                 size (list_to_set (map deleted_file_of_pb (pb_deleted_files pb))
                       : gset (Z * Z))) 0); [contradiction|].
    destruct Hl as [[name Hn] | Hd].
    + rewrite Hn. cbn. by rewrite andb_false_r.
    + rewrite Hd. rewrite orb_true_r. cbn. by rewrite andb_false_r.
Qed.

Lemma DecodeFrom_corrupt (src : list byte) :
  corrupt src -> DecodeFrom ex src = Corruption.
Proof.
  intros [ve cut Henc Hcut | Hparse | pb f Hparse Hin Hmiss
          | pb f lo hi Hparse Hin Hlo Hhi Hlt | pb f Hparse Hin Hwide
          | pb Hparse Hconflict].
  - apply AppendEncodedTo_true in Henc as (pb & _ & Hbytes).
    apply DecodeFrom_unparsed. symmetry in Hbytes.
    by apply (ParseFromArray_cut pb src cut).
  - by apply DecodeFrom_unparsed.
  - eapply DecodeFrom_bad_file; [eassumption|].
    eapply decode_new_files_rejects; [eassumption|].
    by apply decode_new_file_missing_boundary.
  - eapply DecodeFrom_bad_file; [eassumption|].
    eapply decode_new_files_rejects; [eassumption|].
    by apply (decode_new_file_unordered f lo hi).
  - eapply DecodeFrom_bad_file; [eassumption|].
    eapply decode_new_files_rejects; [eassumption|].
    by apply decode_new_file_wide_identity.
  - unfold DecodeFrom. rewrite Hparse.
    destruct (decode_new_files ex (pb_new_files pb)) as [files|] eqn:E;
      [|reflexivity].
    cbv zeta. rewrite lifecycle_conflict_rejected; [reflexivity | assumption |].
    by apply decode_new_files_length.
Qed.

(** C5.  The bytes of an encoded record with the last byte removed decode to
    the corruption status, and so does every input that is corrupt in one of
    the listed ways: truncated, malformed, a file entry without a boundary,
    a boundary pair with the smallest sequence number above the largest, a
    packed identity wider than 64 bits, conflicting lifecycle fields.  The
    result then carries no record at all. *)
Theorem DecodeFrom_rejects_corrupt_input :
  (forall (ve : VersionEdit) (bytes : list byte),
     AppendEncodedTo ve [] = (true, bytes) ->
     bytes <> [] /\ DecodeFrom ex (removelast bytes) = Corruption) /\
  (forall src : list byte, corrupt src -> DecodeFrom ex src = Corruption).
Proof.
  split; [|apply DecodeFrom_corrupt].
  intros ve bytes Henc.
  assert (bytes <> []) as Hne.
  { apply AppendEncodedTo_true in Henc as (pb & _ & ->).
    apply SerializeToString_nonempty. }
  split; [assumption|].
  apply DecodeFrom_corrupt.
  apply (corrupt_truncated _ ve [List.last bytes x00]); [|discriminate].
  by rewrite <- app_removelast_last.
Qed.

End Corruption.

(* ================================================================== *)
(** * Further properties of the descriptor and of the mutators *)

(** ** Unpacking *)

Lemma unpack_decomposition (p : Z) :
  0 <= p < 2 ^ 64 ->
  Z.land p kFileNumberMask = p mod 2 ^ 62 /\
  wrap32 (p / wrap64 (kFileNumberMask + 1)) = p / 2 ^ 62 /\
  0 <= p / 2 ^ 62 <= 3.
Proof.
  intros Hp.
  assert (0 <= p / 2 ^ 62 <= 3) as Hq.
  { split; [apply Z.div_pos; lia|].
    apply Z.lt_succ_r. apply Z.div_lt_upper_bound; lia. }
  split; [|split; [|exact Hq]].
  - rewrite kFileNumberMask_ones. apply Z.land_ones. lia.
  - unfold wrap32, wrap64, kFileNumberMask.
    change (0x3FFFFFFFFFFFFFFF + 1) with (2 ^ 62).
    rewrite (Z.mod_small (2 ^ 62)) by lia.
    apply Z.mod_small. lia.
Qed.

(** X1.  Whatever 64-bit value a descriptor holds, [GetNumber] lies in
    [0, kFileNumberMask], [GetPathId] lies in [0, 3] (its cast to 32 bits
    cuts nothing off), and the two together give the packed value back. *)
Theorem unpacking_loses_nothing (d : FileDescriptor) :
  is_uint64 (packed_number_and_path_id d) ->
  0 <= GetNumber d <= kFileNumberMask /\
  0 <= GetPathId d <= 3 /\
  packed_number_and_path_id d = GetPathId d * (kFileNumberMask + 1) + GetNumber d.
Proof.
  intros Hp. unfold GetNumber, GetPathId.
  destruct (unpack_decomposition _ Hp) as (-> & -> & Hq).
  pose proof (Z.mod_pos_bound (packed_number_and_path_id d) (2 ^ 62) ltac:(lia)) as Hr.
  pose proof (Z.div_mod (packed_number_and_path_id d) (2 ^ 62) ltac:(lia)) as Hdm.
  unfold kFileNumberMask. change (0x3FFFFFFFFFFFFFFF + 1) with (2 ^ 62).
  change 0x3FFFFFFFFFFFFFFF with (2 ^ 62 - 1).
  split; [lia|]. split; [lia|]. lia.
Qed.

(** X2.  Two descriptors with the same file number and the same path id hold
    the same packed identity. *)
Theorem number_and_path_determine_identity (d1 d2 : FileDescriptor) :
  is_uint64 (packed_number_and_path_id d1) ->
  is_uint64 (packed_number_and_path_id d2) ->
  GetNumber d1 = GetNumber d2 -> GetPathId d1 = GetPathId d2 ->
  packed_number_and_path_id d1 = packed_number_and_path_id d2.
Proof.
  intros H1 H2. unfold GetNumber, GetPathId.
  destruct (unpack_decomposition _ H1) as (-> & -> & _).
  destruct (unpack_decomposition _ H2) as (-> & -> & _).
  intros Hn Hp.
  rewrite (Z.div_mod (packed_number_and_path_id d1) (2 ^ 62)) by lia.
  rewrite (Z.div_mod (packed_number_and_path_id d2) (2 ^ 62)) by lia.
  by rewrite Hn, Hp.
Qed.

(** ** Calls and their effect *)

Lemma call_effect m ve ve' : call m ve = Done ve' -> ve' = effect m ve.
Proof.
  intros H. destruct m; cbn in H; try (by injection H as <-).
  - by apply AddTestFile_done in H as [_ ->].
  - by apply AddFile_done in H as [_ ->].
  - by apply AddCleanedFile_done in H as [_ ->].
  - by apply AddColumnFamily_inv in H.
  - by apply DropColumnFamily_inv in H.
Qed.

Lemma AddColumnFamily_pre name ve ve' :
  AddColumnFamily name ve = Done ve' ->
  is_column_family_drop_ ve = false /\ column_family_name_ ve = None /\
  NumEntries ve = 0%nat.
Proof.
  unfold AddColumnFamily.
  destruct (is_column_family_drop_ ve); [discriminate|].
  destruct (column_family_name_ ve); [discriminate|].
  destruct (Nat.eqb_spec (NumEntries ve) 0); [|discriminate]. auto.
Qed.

Lemma DropColumnFamily_pre ve ve' :
  DropColumnFamily ve = Done ve' ->
  is_column_family_drop_ ve = false /\ column_family_name_ ve = None /\
  NumEntries ve = 0%nat.
Proof.
  unfold DropColumnFamily.
  destruct (is_column_family_drop_ ve); [discriminate|].
  destruct (column_family_name_ ve); [discriminate|].
  destruct (Nat.eqb_spec (NumEntries ve) 0); [|discriminate]. auto.
Qed.

Lemma AddColumnFamily_runs name ve :
  is_column_family_drop_ ve = false -> column_family_name_ ve = None ->
  NumEntries ve = 0%nat ->
  AddColumnFamily name ve = Done (effect (CallAddColumnFamily name) ve).
Proof.
  intros Hd Hn He. unfold AddColumnFamily, effect. rewrite Hd, Hn, He. reflexivity.
Qed.

Lemma DropColumnFamily_runs ve :
  is_column_family_drop_ ve = false -> column_family_name_ ve = None ->
  NumEntries ve = 0%nat ->
  DropColumnFamily ve = Done (effect CallDropColumnFamily ve).
Proof.
  intros Hd Hn He. unfold DropColumnFamily, effect. rewrite Hd, Hn, He. reflexivity.
Qed.

(** X3.  [AddColumnFamily] and [DropColumnFamily] go through exactly when
    the drop flag is unset, no column family name is set and the record has
    no file entry; then the one sets the name, the other the flag, the record
    still has no file entry, and the schema fields are as they were. *)
Theorem lifecycle_call_succeeds_exactly_on_pure_record (name : string) (ve : VersionEdit) :
  ((exists ve', AddColumnFamily name ve = Done ve') <->
   is_column_family_drop_ ve = false /\ column_family_name_ ve = None /\
   NumEntries ve = 0%nat) /\
  ((exists ve', DropColumnFamily ve = Done ve') <->
   is_column_family_drop_ ve = false /\ column_family_name_ ve = None /\
   NumEntries ve = 0%nat) /\
  (forall ve', AddColumnFamily name ve = Done ve' ->
     column_family_name_ ve' = Some name /\ is_column_family_drop_ ve' = false /\
     NumEntries ve' = 0%nat /\
     comparator_ ve' = comparator_ ve /\ log_number_ ve' = log_number_ ve /\
     prev_log_number_ ve' = prev_log_number_ ve /\
     next_file_number_ ve' = next_file_number_ ve /\
     max_column_family_ ve' = max_column_family_ ve /\
     last_sequence_ ve' = last_sequence_ ve /\
     flushed_op_id_ ve' = flushed_op_id_ ve /\
     column_family_ ve' = column_family_ ve) /\
  (forall ve', DropColumnFamily ve = Done ve' ->
     column_family_name_ ve' = None /\ is_column_family_drop_ ve' = true /\
     NumEntries ve' = 0%nat /\
     comparator_ ve' = comparator_ ve /\ log_number_ ve' = log_number_ ve /\
     prev_log_number_ ve' = prev_log_number_ ve /\
     next_file_number_ ve' = next_file_number_ ve /\
     max_column_family_ ve' = max_column_family_ ve /\
     last_sequence_ ve' = last_sequence_ ve /\
     flushed_op_id_ ve' = flushed_op_id_ ve /\
     column_family_ ve' = column_family_ ve).
Proof.
  split; [|split; [|split]].
  - split.
    + intros [ve' H]. by apply AddColumnFamily_pre in H.
    + intros (Hd & Hn & He). eexists. unfold AddColumnFamily.
      rewrite Hd, Hn, He. reflexivity.
  - split.
    + intros [ve' H]. by apply DropColumnFamily_pre in H.
    + intros (Hd & Hn & He). eexists. unfold DropColumnFamily.
      rewrite Hd, Hn, He. reflexivity.
  - intros ve' H. pose proof (AddColumnFamily_pre _ _ _ H) as (Hd & Hn & He).
    apply AddColumnFamily_inv in H as ->. unfold NumEntries in *. cbn.
    by rewrite Hd.
  - intros ve' H. pose proof (DropColumnFamily_pre _ _ H) as (Hd & Hn & He).
    apply DropColumnFamily_inv in H as ->. unfold NumEntries in *. cbn.
    by rewrite Hn.
Qed.

Lemma effect_lifecycle_fields m ve :
  m <> CallClear ->
  (column_family_name_ (effect m ve) = column_family_name_ ve /\
   is_column_family_drop_ (effect m ve) = is_column_family_drop_ ve) \/
  (exists name, m = CallAddColumnFamily name) \/ m = CallDropColumnFamily.
Proof. intros Hm. destruct m; try congruence; eauto. Qed.

Lemma call_lifecycle_fields m ve ve' :
  call m ve = Done ve' -> m <> CallClear ->
  (column_family_name_ ve' = column_family_name_ ve /\
   is_column_family_drop_ ve' = is_column_family_drop_ ve) \/
  (is_column_family_drop_ ve = false /\ column_family_name_ ve = None /\
   ((exists name, column_family_name_ ve' = Some name /\
                  is_column_family_drop_ ve' = false) \/
    (column_family_name_ ve' = None /\ is_column_family_drop_ ve' = true))).
Proof.
  intros H Hm. pose proof (call_effect _ _ _ H) as ->.
  destruct (effect_lifecycle_fields m ve Hm) as [Hsame | [[name ->] | ->]];
    [by left | right..]; cbn in H.
  - destruct (AddColumnFamily_pre _ _ _ H) as (Hd & Hn & _).
    split; [done|]. split; [done|]. left. exists name. by cbn.
  - destruct (DropColumnFamily_pre _ _ H) as (Hd & Hn & _).
    split; [done|]. split; [done|]. right. by cbn.
Qed.

(** X4.  No run of calls short of [Clear] leads from a record with at most
    one lifecycle field set to a record with both the column family name and
    the drop flag set. *)
Theorem lifecycle_fields_stay_exclusive (ms : list mutation) (ve ve' : VersionEdit) :
  CallClear ∉ ms ->
  ~ (IsColumnFamilyAdd ve = true /\ is_column_family_drop_ ve = true) ->
  calls ms ve = Done ve' ->
  ~ (IsColumnFamilyAdd ve' = true /\ is_column_family_drop_ ve' = true).
Proof.
  revert ve. induction ms as [|m ms IH]; intros ve Hc Hex H; cbn in H.
  - by injection H as <-.
  - apply not_elem_of_cons in Hc as [Hm Hc].
    destruct (call m ve) as [ve1|] eqn:E; [|discriminate]. cbn in H.
    apply (IH ve1 Hc); [|exact H].
    unfold IsColumnFamilyAdd in *.
    destruct (call_lifecycle_fields _ _ _ E (not_eq_sym Hm))
      as [[Hn Hd] | (_ & _ & [(name & Hn & Hd) | [Hn Hd]])]; rewrite Hn, Hd.
    + exact Hex.
    + intros [_ ?]. discriminate.
    + intros [? _]. discriminate.
Qed.

(** X7.  The lifecycle fields are written once: a column family name that is
    set, and a drop flag that is set, are still the same after any run of
    calls short of [Clear]. *)
Theorem lifecycle_fields_are_write_once (ms : list mutation) (ve ve' : VersionEdit) :
  CallClear ∉ ms ->
  calls ms ve = Done ve' ->
  (forall name, column_family_name_ ve = Some name ->
                column_family_name_ ve' = Some name) /\
  (is_column_family_drop_ ve = true -> is_column_family_drop_ ve' = true).
Proof.
  revert ve. induction ms as [|m ms IH]; intros ve Hc H; cbn in H.
  - by injection H as <-.
  - apply not_elem_of_cons in Hc as [Hm Hc].
    destruct (call m ve) as [ve1|] eqn:E; [|discriminate]. cbn in H.
    destruct (IH ve1 Hc H) as [IHn IHd].
    destruct (call_lifecycle_fields _ _ _ E (not_eq_sym Hm))
      as [[Hn Hd] | (Hd0 & Hn0 & _)].
    + split.
      * intros name Hname. apply IHn. by rewrite Hn.
      * intros Hdrop. apply IHd. by rewrite Hd.
    + split; [intros name Hname | intros Hdrop]; congruence.
Qed.

(** ** The file containers over a run of calls *)

Lemma appended_in_order m ve ve' :
  call m ve = Done ve' ->
  Forall (fun lf : Z * FileMetaData =>
            seqno (smallest (snd lf)) <= seqno (largest (snd lf))) (appended m).
Proof.
  intros H. destruct m; cbn in *; try apply List.Forall_nil.
  - apply AddTestFile_done in H as [Ho _]. constructor; [exact Ho | constructor].
  - apply AddFile_done in H as [Ho _]. constructor; [exact Ho | constructor].
  - apply AddCleanedFile_done in H as [Ho _]. constructor; [exact Ho | constructor].
Qed.

(** X5.  Every file that a run of calls adds has ordered boundary sequence
    numbers: if the files of a record are so, the files of the record after
    any run of calls short of [Clear] are so too. *)
Theorem added_files_have_ordered_boundaries (ms : list mutation) (ve ve' : VersionEdit) :
  CallClear ∉ ms ->
  Forall (fun lf : Z * FileMetaData =>
            seqno (smallest (snd lf)) <= seqno (largest (snd lf))) (GetNewFiles ve) ->
  calls ms ve = Done ve' ->
  Forall (fun lf : Z * FileMetaData =>
            seqno (smallest (snd lf)) <= seqno (largest (snd lf))) (GetNewFiles ve').
Proof.
  unfold GetNewFiles.
  revert ve. induction ms as [|m ms IH]; intros ve Hc Hord H; cbn in H.
  - by injection H as <-.
  - apply not_elem_of_cons in Hc as [Hm Hc].
    destruct (call m ve) as [ve1|] eqn:E; [|discriminate]. cbn in H.
    apply (IH ve1 Hc); [|exact H].
    destruct (call_entries _ _ _ E (not_eq_sym Hm)) as [-> _].
    apply Forall_app. split; [exact Hord | by apply (appended_in_order m ve ve1)].
Qed.

(** X6.  After a run of calls short of [Clear], [GetNewFiles] lists the old
    files followed by the files of the additions in the order of the calls,
    repeated additions included, and [GetDeletedFiles] is the old set joined
    with the pairs of the deletions. *)
Theorem new_files_follow_call_order (ms : list mutation) (ve ve' : VersionEdit) :
  CallClear ∉ ms ->
  calls ms ve = Done ve' ->
  GetNewFiles ve' = GetNewFiles ve ++ flat_map appended ms /\
  GetDeletedFiles ve' = deletions ms ∪ GetDeletedFiles ve.
Proof.
  unfold GetNewFiles, GetDeletedFiles.
  revert ve. induction ms as [|m ms IH]; intros ve Hc H; cbn in H.
  - injection H as <-. cbn. by rewrite app_nil_r, union_empty_l_L.
  - apply not_elem_of_cons in Hc as [Hm Hc].
    destruct (call m ve) as [ve1|] eqn:E; [|discriminate]. cbn in H.
    destruct (IH ve1 Hc H) as [-> ->].
    destruct (call_entries _ _ _ E (not_eq_sym Hm)) as [-> ->].
    cbn. rewrite <- app_assoc. split; [reflexivity|].
    by rewrite (assoc_L (∪)), (comm_L (∪) (deletions ms) (deleted m)).
Qed.

(** X15.  [NumEntries] never decreases along a run of calls short of
    [Clear]. *)
Theorem NumEntries_never_decreases (ms : list mutation) (ve ve' : VersionEdit) :
  CallClear ∉ ms ->
  calls ms ve = Done ve' ->
  (NumEntries ve <= NumEntries ve')%nat.
Proof.
  intros Hc H. destruct (calls_entries _ _ _ H Hc) as [Hlen Hdel].
  unfold NumEntries. rewrite Hlen, Hdel.
  assert (size (deleted_files_ ve) <= size (deletions ms ∪ deleted_files_ ve))%nat
    by (apply subseteq_size, union_subseteq_r). lia.
Qed.

(** X14.  [NumEntries() == 0] holds exactly of the records with no file
    addition and no file deletion. *)
Theorem NumEntries_zero_iff_no_file_entries (ve : VersionEdit) :
  NumEntries ve = 0%nat <-> GetNewFiles ve = [] /\ GetDeletedFiles ve = ∅.
Proof.
  unfold NumEntries, GetNewFiles, GetDeletedFiles. split.
  - intros H. split.
    + destruct (new_files_ ve); [done | cbn in H; lia].
    + apply leibniz_equiv, size_empty_iff. lia.
  - intros [-> ->]. by rewrite size_empty.
Qed.

(** X8.  Deletions commute; a deletion puts its pair into the set and keeps
    the pairs that were there; and it raises [NumEntries] by one when the
    pair is new and leaves it alone when the pair was deleted before. *)
Theorem DeleteFile_order_and_count (ve : VersionEdit) (l1 f1 l2 f2 : Z) :
  DeleteFile l1 f1 (DeleteFile l2 f2 ve) = DeleteFile l2 f2 (DeleteFile l1 f1 ve) /\
  (l1, f1) ∈ GetDeletedFiles (DeleteFile l1 f1 ve) /\
  GetDeletedFiles ve ⊆ GetDeletedFiles (DeleteFile l1 f1 ve) /\
  GetNewFiles (DeleteFile l1 f1 ve) = GetNewFiles ve /\
  ((l1, f1) ∈ GetDeletedFiles ve ->
   NumEntries (DeleteFile l1 f1 ve) = NumEntries ve) /\
  ((l1, f1) ∉ GetDeletedFiles ve ->
   NumEntries (DeleteFile l1 f1 ve) = S (NumEntries ve)).
Proof.
  unfold GetDeletedFiles, GetNewFiles, NumEntries. cbn.
  split; [|split; [|split; [|split; [|split]]]].
  - unfold DeleteFile; cbn. f_equal.
    by rewrite !(assoc_L (∪)), (comm_L (∪) {[(l1, f1)]} {[(l2, f2)]}).
  - apply elem_of_union_l. by apply elem_of_singleton.
  - apply union_subseteq_r.
  - reflexivity.
  - intros Hin. rewrite subseteq_union_1_L; [reflexivity|].
    by apply singleton_subseteq_l.
  - intros Hnin. rewrite size_union by (by apply disjoint_singleton_l).
    rewrite size_singleton. lia.
Qed.

(** ** The records that the cleaning additions store *)

Lemma cleaned_cleaned (f : FileMetaData) : cleaned (cleaned f) = cleaned f.
Proof. reflexivity. Qed.

Lemma cleaned_test_file d (lo hi : BoundaryValues) marked :
  cleaned (test_file d lo hi marked) = test_file d lo hi marked.
Proof. reflexivity. Qed.

(** X9.  The record that [AddCleanedFile] or [AddTestFile] stores is already
    clean: adding that record again to the same [VersionEdit], by [AddFile]
    or by [AddCleanedFile], gives the same result. *)
Theorem stored_clean_record_is_fixed
    (level : Z) (f : FileMetaData) (d : FileDescriptor) (marked : bool)
    (ve ve' : VersionEdit) (nf : FileMetaData) :
  AddCleanedFile level f ve = Done ve' \/
  AddTestFile level d (smallest f) (largest f) marked ve = Done ve' ->
  last (GetNewFiles ve') = Some (level, nf) ->
  AddFile level nf ve = Done ve' /\ AddCleanedFile level nf ve = Done ve'.
Proof.
  unfold GetNewFiles. intros [H | H] Hlast.
  - apply AddCleanedFile_done in H as [Ho ->]. cbn in Hlast.
    rewrite last_snoc in Hlast. injection Hlast as <-.
    rewrite AddFile_ordered, AddCleanedFile_ordered by exact Ho.
    by rewrite cleaned_cleaned.
  - apply AddTestFile_done in H as [Ho ->]. cbn in Hlast.
    rewrite last_snoc in Hlast. injection Hlast as <-.
    rewrite AddFile_ordered, AddCleanedFile_ordered by exact Ho.
    by rewrite cleaned_test_file.
Qed.

(** X10.  [AddCleanedFile] reads only the packed identity and the sizes of the
    descriptor, the two boundaries, [last_op_id], [marked_for_compaction] and
    [imported] of its argument: two records that agree on these give the same
    result, whatever their reference counts, reader pointers, flags and
    statistics. *)
Theorem AddCleanedFile_reads_persistent_fields_only
    (level : Z) (f f' : FileMetaData) (ve : VersionEdit) :
  packed_number_and_path_id (fd f) = packed_number_and_path_id (fd f') ->
  total_file_size (fd f) = total_file_size (fd f') ->
  base_file_size (fd f) = base_file_size (fd f') ->
  smallest f = smallest f' -> largest f = largest f' ->
  last_op_id f = last_op_id f' ->
  marked_for_compaction f = marked_for_compaction f' ->
  imported f = imported f' ->
  AddCleanedFile level f ve = AddCleanedFile level f' ve.
Proof.
  intros Hp Ht Hb Hs Hl Ho Hm Hi.
  unfold AddCleanedFile, set_table_reader; cbn.
  by rewrite Hp, Ht, Hb, Hs, Hl, Ho, Hm, Hi.
Qed.

(** X11.  With ordered boundary sequence numbers, [AddTestFile] appends a
    record with the identity and sizes of the given descriptor and a null
    table reader, the given boundaries and flag, and a [last_op_id] of term
    1 whose index is the largest sequence number converted to [int64_t]:
    the number itself below 2^63, and a negative index from 2^63 on.  The
    deleted set is untouched, and [imported] and every other field are as
    default construction leaves them. *)
Theorem AddTestFile_stores_fresh_record
    (level : Z) (d : FileDescriptor) (lo hi : BoundaryValues) (marked : bool)
    (ve : VersionEdit) :
  seqno lo <= seqno hi ->
  exists ve' nf,
    AddTestFile level d lo hi marked ve = Done ve' /\
    GetNewFiles ve' = GetNewFiles ve ++ [(level, nf)] /\
    GetDeletedFiles ve' = GetDeletedFiles ve /\
    table_reader (fd nf) = nullptr /\
    packed_number_and_path_id (fd nf) = packed_number_and_path_id d /\
    total_file_size (fd nf) = total_file_size d /\
    base_file_size (fd nf) = base_file_size d /\
    smallest nf = lo /\ largest nf = hi /\
    marked_for_compaction nf = marked /\
    term (last_op_id nf) = 1 /\
    (0 <= seqno hi < 2 ^ 63 -> index (last_op_id nf) = seqno hi) /\
    (2 ^ 63 <= seqno hi < 2 ^ 64 -> index (last_op_id nf) = seqno hi - 2 ^ 64) /\
    imported nf = imported FileMetaData_default /\
    refs nf = refs FileMetaData_default /\
    being_compacted nf = being_compacted FileMetaData_default /\
    table_reader_handle nf = table_reader_handle FileMetaData_default /\
    compensated_file_size nf = compensated_file_size FileMetaData_default /\
    num_entries nf = num_entries FileMetaData_default /\
    num_deletions nf = num_deletions FileMetaData_default /\
    raw_key_size nf = raw_key_size FileMetaData_default /\
    raw_value_size nf = raw_value_size FileMetaData_default /\
    init_stats_from_file nf = init_stats_from_file FileMetaData_default.
Proof.
  intros Ho. eexists _, _. rewrite AddTestFile_ordered by exact Ho.
  split; [reflexivity|].
  repeat match goal with |- _ /\ _ => split end; try reflexivity.
  - intros Hr. cbn. unfold to_int64.
    rewrite Z.mod_small by lia. lia.
  - intros Hr. cbn. unfold to_int64.
    replace (seqno hi + 2 ^ 63) with (seqno hi - 2 ^ 63 + 1 * 2 ^ 64) by lia.
    rewrite Z_mod_plus_full, Z.mod_small by lia. lia.
Qed.

(** ** Setters *)

Lemma calls_last_write {X : Type} (proj : VersionEdit -> X)
    (writes : mutation -> option X) :
  (forall m ve, m <> CallClear ->
     proj (effect m ve) = match writes m with Some x => x | None => proj ve end) ->
  forall ms ve ve', CallClear ∉ ms -> calls ms ve = Done ve' ->
    proj ve' = last_write writes ms (proj ve).
Proof.
  intros Hstep. unfold last_write.
  induction ms as [|m ms IH]; intros ve ve' Hc H; cbn in H.
  - by injection H as <-.
  - apply not_elem_of_cons in Hc as [Hm Hc].
    destruct (call m ve) as [ve1|] eqn:E; [|discriminate]. cbn in H.
    rewrite (IH ve1 ve' Hc H). apply call_effect in E as ->.
    cbn [fold_left]. by rewrite Hstep by congruence.
Qed.

(** X12.  Along a run of calls short of [Clear], each schema field ends with
    the argument of the last call of its own setter, or with its initial
    value when that setter was not called: a setter overwrites, and no other
    call touches the field. *)
Theorem setters_last_write_wins (ms : list mutation) (ve ve' : VersionEdit) :
  CallClear ∉ ms ->
  calls ms ve = Done ve' ->
  comparator_ ve' = last_write writes_comparator ms (comparator_ ve) /\
  log_number_ ve' = last_write writes_log_number ms (log_number_ ve) /\
  prev_log_number_ ve' = last_write writes_prev_log_number ms (prev_log_number_ ve) /\
  next_file_number_ ve' = last_write writes_next_file_number ms (next_file_number_ ve) /\
  max_column_family_ ve' =
    last_write writes_max_column_family ms (max_column_family_ ve) /\
  last_sequence_ ve' = last_write writes_last_sequence ms (last_sequence_ ve) /\
  flushed_op_id_ ve' = last_write writes_flushed_op_id ms (flushed_op_id_ ve) /\
  column_family_ ve' = last_write writes_column_family ms (column_family_ ve).
Proof.
  intros Hc H.
  repeat match goal with |- _ /\ _ => split end;
    (apply calls_last_write;
     [intros m v Hm; destruct m; (reflexivity || congruence) | exact Hc | exact H]).
Qed.

Lemma lifecycle_decided ve :
  (is_column_family_drop_ ve = true \/ IsColumnFamilyAdd ve = true \/
   NumEntries ve <> 0%nat) \/
  ~ (is_column_family_drop_ ve = true \/ IsColumnFamilyAdd ve = true \/
     NumEntries ve <> 0%nat).
Proof.
  destruct (is_column_family_drop_ ve); [by left; left|].
  destruct (IsColumnFamilyAdd ve); [by left; right; left|].
  destruct (Nat.eq_dec (NumEntries ve) 0%nat) as [E|E].
  - right. intros [? | [? | ?]]; congruence.
  - left. by right; right.
Qed.

Lemma lifecycle_call_aborts_iff name ve :
  (AddColumnFamily name ve = AssertionFailed <->
   is_column_family_drop_ ve = true \/ IsColumnFamilyAdd ve = true \/
   NumEntries ve <> 0%nat) /\
  (DropColumnFamily ve = AssertionFailed <->
   is_column_family_drop_ ve = true \/ IsColumnFamilyAdd ve = true \/
   NumEntries ve <> 0%nat).
Proof.
  assert (~ (is_column_family_drop_ ve = true \/ IsColumnFamilyAdd ve = true \/
             NumEntries ve <> 0%nat) ->
          is_column_family_drop_ ve = false /\ column_family_name_ ve = None /\
          NumEntries ve = 0%nat) as Hpure.
  { intros Hn. unfold IsColumnFamilyAdd in Hn.
    destruct (is_column_family_drop_ ve); [tauto|].
    destruct (column_family_name_ ve); [cbn in Hn; tauto|].
    destruct (Nat.eq_dec (NumEntries ve) 0%nat); tauto. }
  split; split.
  - intros Hab.
    destruct (lifecycle_decided ve) as [Hyes | Hno]; [exact Hyes|].
    destruct (Hpure Hno) as (Hd & Hn & He).
    rewrite (AddColumnFamily_runs name ve Hd Hn He) in Hab. discriminate.
  - apply AddColumnFamily_aborts.
  - intros Hab.
    destruct (lifecycle_decided ve) as [Hyes | Hno]; [exact Hyes|].
    destruct (Hpure Hno) as (Hd & Hn & He).
    rewrite (DropColumnFamily_runs ve Hd Hn He) in Hab. discriminate.
  - apply DropColumnFamily_aborts.
Qed.

(** X13.  A run made of setters only never aborts, leaves both file
    containers and both lifecycle fields as they were, and so does not
    change whether [AddColumnFamily] or [DropColumnFamily] aborts. *)
Theorem setters_leave_entries_and_lifecycle (ms : list mutation) (ve : VersionEdit) :
  Forall (fun m => is_setter m = true) ms ->
  exists ve',
    calls ms ve = Done ve' /\
    GetNewFiles ve' = GetNewFiles ve /\
    GetDeletedFiles ve' = GetDeletedFiles ve /\
    column_family_name_ ve' = column_family_name_ ve /\
    is_column_family_drop_ ve' = is_column_family_drop_ ve /\
    (forall name, AddColumnFamily name ve' = AssertionFailed <->
                  AddColumnFamily name ve = AssertionFailed) /\
    (DropColumnFamily ve' = AssertionFailed <-> DropColumnFamily ve = AssertionFailed).
Proof.
  intros Hms.
  assert (exists ve', calls ms ve = Done ve' /\
            new_files_ ve' = new_files_ ve /\ deleted_files_ ve' = deleted_files_ ve /\
            column_family_name_ ve' = column_family_name_ ve /\
            is_column_family_drop_ ve' = is_column_family_drop_ ve)
    as (ve' & Hcalls & Hn & Hd & Hname & Hdrop).
  { revert ve. induction Hms as [|m ms Hm _ IH]; intros ve.
    - by exists ve.
    - assert (call m ve = Done (effect m ve)) as E by (by destruct m).
      destruct (IH (effect m ve)) as (ve' & H & Hn & Hd & Hname & Hdrop).
      exists ve'. cbn. rewrite E. cbn. split; [exact H|].
      rewrite Hn, Hd, Hname, Hdrop. by destruct m. }
  exists ve'. unfold GetNewFiles, GetDeletedFiles.
  split; [exact Hcalls|]. split; [exact Hn|]. split; [exact Hd|].
  split; [exact Hname|]. split; [exact Hdrop|].
  assert (IsColumnFamilyAdd ve' = IsColumnFamilyAdd ve) as Hadd
    by (unfold IsColumnFamilyAdd; by rewrite Hname).
  assert (NumEntries ve' = NumEntries ve) as Hnum
    by (unfold NumEntries; by rewrite Hn, Hd).
  split; [intros name|].
  - rewrite (proj1 (lifecycle_call_aborts_iff name ve')).
    rewrite (proj1 (lifecycle_call_aborts_iff name ve)).
    by rewrite Hdrop, Hadd, Hnum.
  - rewrite (proj2 (lifecycle_call_aborts_iff "" ve')).
    rewrite (proj2 (lifecycle_call_aborts_iff "" ve)).
    by rewrite Hdrop, Hadd, Hnum.
Qed.

(** X16.  The only assertions of the header are those of the file additions
    and of the lifecycle calls: a run of setters, deletions and file
    additions in which every added file has ordered boundary sequence
    numbers never aborts, from whatever record it starts. *)
Theorem run_without_violation_never_aborts (ms : list mutation) (ve : VersionEdit) :
  Forall file_call_in_order ms ->
  exists ve', calls ms ve = Done ve'.
Proof.
  intros Hms. revert ve. induction Hms as [|m ms Hm _ IH]; intros ve.
  - by exists ve.
  - assert (call m ve = Done (effect m ve)) as E.
    { destruct m; cbn in Hm |- *; try reflexivity; try contradiction.
      - by apply AddTestFile_ordered.
      - by apply AddFile_ordered.
      - by apply AddCleanedFile_ordered. }
    destruct (IH (effect m ve)) as [ve' H]. exists ve'. cbn. by rewrite E.
Qed.

End Model.

Arguments mkBoundaryBase {Aux} seqno aux.
Arguments mkBoundary {Aux} key base.
Arguments mkFileMetaData {Aux}.
Arguments mkExtractor {Aux} extract decode_user_values.
Arguments seqno {Aux} f.
Arguments aux {Aux} f.
Arguments key {Aux} b.
Arguments smallest {Aux} f.
Arguments largest {Aux} f.
Arguments fd {Aux} f.
Arguments new_files_ {Aux} v.
Arguments deleted_files_ {Aux} v.
Arguments column_family_name_ {Aux} v.
Arguments VersionEdit_new {Aux}.
Arguments FileMetaData_default {Aux} BoundaryValues_default.
Arguments SetComparatorName {Aux} name ve.
Arguments SetLogNumber {Aux} num ve.
Arguments SetNextFile {Aux} num ve.
Arguments SetLastSequence {Aux} seq ve.
Arguments emplace_back_new_file {Aux} level f ve.
Arguments AddTestFile {Aux} BoundaryValues_default level d smallest_ largest_ marked ve.
Arguments AddFile {Aux} level f ve.
Arguments AddCleanedFile {Aux} BoundaryValues_default level f ve.
Arguments DeleteFile {Aux} level file ve.
Arguments NumEntries {Aux} ve.
Arguments IsColumnFamilyAdd {Aux} ve.
Arguments IsColumnFamilyManipulation {Aux} ve.
Arguments AddColumnFamily {Aux} name ve.
Arguments DropColumnFamily {Aux} ve.
Arguments GetDeletedFiles {Aux} ve.
Arguments GetNewFiles {Aux} ve.
Arguments calls {Aux} BoundaryValues_default ms ve.
Arguments CallSetComparatorName {Aux} name.
Arguments CallSetLogNumber {Aux} num.
Arguments CallSetNextFile {Aux} num.
Arguments CallSetLastSequence {Aux} seq.
Arguments CallAddFile {Aux} level f.
Arguments CallAddCleanedFile {Aux} level f.
Arguments CallDeleteFile {Aux} level file.
Arguments derived_boundary {Aux} ex k source.
Arguments boundaries_unset {Aux} f.
Arguments UpdateBoundaries {Aux} ex k source f.
Arguments UpdateBoundaries_all {Aux} ex inputs f.
Arguments lifecycle_exclusive {Aux} ve.
Arguments EncodeTo {Aux} user_values_bytes ve.
Arguments AppendEncodedTo {Aux} user_values_bytes ve dst.
Arguments DecodeFrom {Aux} BoundaryValues_default ex src.
Arguments recovered {Aux} BoundaryValues_default ve.
Arguments recovered_file {Aux} BoundaryValues_default f.
Arguments corrupt {Aux} user_values_bytes src.

(* ================================================================== *)
(** * Concrete runs *)

(** An instance of the model: auxiliary values are byte strings that are
    their own serialized form, and the extractor copies them. *)
Definition sample_default_boundary : BoundaryValues (list byte) :=
  mkBoundary [] (mkBoundaryBase 0 []).

Definition sample_extractor : BoundaryValuesExtractor (list byte) :=
  mkExtractor (fun _ source => aux source) (fun _ bs => Some bs).

Definition sample_user_values_bytes (a : list byte) : list byte := a.

Definition sample_boundary (k : InternalKey) (s : SequenceNumber)
  : BoundaryValues (list byte) :=
  mkBoundary k (mkBoundaryBase s [x2a]).

(** A live file: referenced, open in the table cache, under compaction. *)
Definition sample_file (lo hi : SequenceNumber) : FileMetaData (list byte) :=
  {| refs := 1;
     fd := set_table_reader (Some 4096%N) (FileDescriptor_of 7 1 4096 1024);
     being_compacted := true;
     smallest := sample_boundary [x61] lo;
     largest := sample_boundary [x7a] hi;
     last_op_id := mkOpId 2 40;
     imported := true;
     table_reader_handle := Some 8192%N;
     compensated_file_size := 5000;
     num_entries := 10;
     num_deletions := 3;
     raw_key_size := 80;
     raw_value_size := 800;
     init_stats_from_file := true;
     marked_for_compaction := true |}.

Definition sample_calls : list (mutation (list byte)) :=
  [CallSetComparatorName "bytewise"; CallSetLogNumber 300; CallSetNextFile 12;
   CallSetLastSequence 9; CallAddFile 2 (sample_file 5 9);
   CallDeleteFile 3 100; CallDeleteFile 3 100].

Definition sample_edit : VersionEdit (list byte) :=
  DeleteFile 3 100 (DeleteFile 3 100
    (emplace_back_new_file 2 (sample_file 5 9)
       (SetLastSequence 9 (SetNextFile 12 (SetLogNumber 300
          (SetComparatorName "bytewise" VersionEdit_new)))))).

(** The bytes of a record that only sets the log number 300, and what the
    decoder makes of them with and without their last byte. *)
Example encoded_log_number :
  AppendEncodedTo sample_user_values_bytes (SetLogNumber 300 VersionEdit_new) [] =
  (true, [x00; x01; xac; x02; x00; x00; x00; x00; x00; x00; x00; x00; x00; x00; x00]).
Proof. vm_compute. reflexivity. Qed.

Example decoded_log_number :
  DecodeFrom sample_default_boundary sample_extractor
    [x00; x01; xac; x02; x00; x00; x00; x00; x00; x00; x00; x00; x00; x00; x00] =
  Decoded (SetLogNumber 300 VersionEdit_new).
Proof. vm_compute. reflexivity. Qed.

(** The sample record survives the trip through its bytes, up to the
    transient fields of its file. *)
Example sample_edit_round_trip :
  DecodeFrom sample_default_boundary sample_extractor
    (snd (AppendEncodedTo sample_user_values_bytes sample_edit [])) =
  Decoded (recovered sample_default_boundary sample_edit).
Proof. vm_compute. reflexivity. Qed.

(** Messages that parse and are rejected all the same: a file entry without
    its smallest boundary, one with boundary sequence numbers 9 and 5, one
    with a packed identity of 65 bits, and a message that both names a new
    column family and adds a file. *)
Definition sample_file_entry (packed : N) (lo hi : option BoundaryValuesPB)
  : NewFilePB :=
  {| pb_level := 1;
     pb_packed_number_and_path_id := packed;
     pb_total_file_size := 10;
     pb_base_file_size := 10;
     pb_smallest := lo;
     pb_largest := hi;
     pb_last_op_id := mkOpIdPB 1 2;
     pb_imported := false;
     pb_compensated_file_size := 0;
     pb_num_entries := 0;
     pb_num_deletions := 0;
     pb_raw_key_size := 0;
     pb_raw_value_size := 0;
     pb_init_stats_from_file := false;
     pb_marked_for_compaction := false |}.

Definition sample_message (files : list NewFilePB) (cf_name : option string)
  : VersionEditPB :=
  {| pb_comparator := None;
     pb_log_number := None;
     pb_prev_log_number := None;
     pb_next_file_number := None;
     pb_max_column_family := None;
     pb_last_sequence := None;
     pb_flushed_op_id := mkOpIdPB 0 0;
     pb_new_files := files;
     pb_deleted_files := [];
     pb_column_family := 0;
     pb_column_family_name := cf_name;
     pb_is_column_family_drop := false |}.

Definition sample_wide_entry : NewFilePB :=
  sample_file_entry (2 ^ 64) (Some (mkBoundaryValuesPB [x61] [] 5))
                             (Some (mkBoundaryValuesPB [x62] [] 9)).

Definition sample_wide_message : VersionEditPB :=
  sample_message [sample_wide_entry] None.

Example decoded_ordered_file :
  exists ve,
    DecodeFrom sample_default_boundary sample_extractor
      (MessageCodec.SerializeToString
         (sample_message
            [sample_file_entry 7 (Some (mkBoundaryValuesPB [x61] [] 5))
                                 (Some (mkBoundaryValuesPB [x62] [] 9))] None)) =
    Decoded ve.
Proof. eexists. vm_compute. reflexivity. Qed.

Example decoded_missing_boundary :
  DecodeFrom sample_default_boundary sample_extractor
    (MessageCodec.SerializeToString
       (sample_message
          [sample_file_entry 7 None (Some (mkBoundaryValuesPB [x62] [] 9))] None)) =
  Corruption.
Proof. vm_compute. reflexivity. Qed.

Example decoded_unordered_boundaries :
  DecodeFrom sample_default_boundary sample_extractor
    (MessageCodec.SerializeToString
       (sample_message
          [sample_file_entry 7 (Some (mkBoundaryValuesPB [x61] [] 9))
                               (Some (mkBoundaryValuesPB [x62] [] 5))] None)) =
  Corruption.
Proof. vm_compute. reflexivity. Qed.

Example decoded_wide_identity :
  DecodeFrom sample_default_boundary sample_extractor
    (MessageCodec.SerializeToString sample_wide_message) = Corruption.
Proof. vm_compute. reflexivity. Qed.

Example decoded_lifecycle_conflict :
  DecodeFrom sample_default_boundary sample_extractor
    (MessageCodec.SerializeToString
       (sample_message
          [sample_file_entry 7 (Some (mkBoundaryValuesPB [x61] [] 5))
                               (Some (mkBoundaryValuesPB [x62] [] 9))]
          (Some "cf"%string))) =
  Corruption.
Proof. vm_compute. reflexivity. Qed.

Example decoded_log_number_truncated :
  DecodeFrom sample_default_boundary sample_extractor
    [x00; x01; xac; x02; x00; x00; x00; x00; x00; x00; x00; x00; x00; x00] =
  Corruption.
Proof. vm_compute. reflexivity. Qed.

Lemma pack_unpack_identity_witness :
  (0 <= 100 <= 2 ^ 62 - 1 /\ 0 <= 3 <= 3) /\
  let d := FileDescriptor_of 100 3 4096 1024 in
  packed_number_and_path_id d = 3 * (kFileNumberMask + 1) + 100 /\
  GetNumber d = 100 /\ GetPathId d = 3.
Proof.
  split; [lia|]. apply (pack_unpack_identity 100 3 4096 1024); lia.
Defined.

Lemma file_addition_asserts_boundary_order_witness :
  (AddFile 2 (sample_file 9 5) VersionEdit_new = AssertionFailed /\
   AddCleanedFile sample_default_boundary 2 (sample_file 9 5) VersionEdit_new =
     AssertionFailed /\
   AddTestFile sample_default_boundary 2 (fd (sample_file 9 5))
     (smallest (sample_file 9 5)) (largest (sample_file 9 5)) false VersionEdit_new =
     AssertionFailed) /\
  (exists ve', AddFile 2 (sample_file 5 9) VersionEdit_new = Done ve' /\
               new_files_ ve' = [(2, sample_file 5 9)]).
Proof.
  split.
  - apply (file_addition_asserts_boundary_order (list byte) sample_default_boundary
             2 (sample_file 9 5) (fd (sample_file 9 5)) false VersionEdit_new).
    reflexivity.
  - apply (file_addition_asserts_boundary_order (list byte) sample_default_boundary
             2 (sample_file 5 9) (fd (sample_file 5 9)) false VersionEdit_new).
    discriminate.
Defined.

Lemma AddCleanedFile_strips_transient_state_witness :
  exists ve' nf,
    AddCleanedFile sample_default_boundary 2 (sample_file 5 9) VersionEdit_new = Done ve' /\
    new_files_ ve' = [(2, nf)] /\
    table_reader (fd nf) = nullptr /\
    refs _ nf = 0 /\ being_compacted _ nf = false /\
    table_reader_handle _ nf = nullptr /\
    smallest nf = sample_boundary [x61] 5 /\ largest nf = sample_boundary [x7a] 9.
Proof.
  destruct (AddCleanedFile_strips_transient_state (list byte) sample_default_boundary
              2 (sample_file 5 9) VersionEdit_new)
    as (ve' & nf & H1 & H2 & H3 & H4 & H5 & H6 & _ & _ & _ & _ & _ & _ & _ & _ & _
        & H7 & H8 & _).
  - discriminate.
  - exists ve', nf. repeat split; assumption.
Defined.

Lemma AddFile_stores_argument_verbatim_witness :
  exists ve' stored,
    AddFile 2 (sample_file 5 9) VersionEdit_new = Done ve' /\
    new_files_ ve' = [(2, stored)] /\
    table_reader (fd stored) = Some 4096%N /\
    refs _ stored = 1 /\ being_compacted _ stored = true.
Proof.
  destruct (AddFile_stores_argument_verbatim (list byte) sample_default_boundary
              2 (sample_file 5 9) (fd (sample_file 5 9)) false VersionEdit_new)
    as ((ve' & stored & H1 & H2 & H3 & H4 & H5 & H6 & _) & _).
  - discriminate.
  - exists ve', stored. repeat split; assumption.
Defined.

Lemma lifecycle_exclusion_checked_one_way_witness :
  (AddColumnFamily "cf"
     (SetLogNumber 7 (DeleteFile 3 100 (VersionEdit_new (Aux := list byte)))) =
     AssertionFailed /\
   DropColumnFamily
     (SetLogNumber 7 (DeleteFile 3 100 (VersionEdit_new (Aux := list byte)))) =
     AssertionFailed) /\
  (forall ve1, DropColumnFamily (VersionEdit_new (Aux := list byte)) = Done ve1 ->
     IsColumnFamilyManipulation (DeleteFile 3 100 ve1) = true /\
     NumEntries (DeleteFile 3 100 ve1) = 1%nat).
Proof.
  assert (CallClear (list byte) ∉ [CallSetLogNumber 7]) as Hclear.
  { intros Hin. apply elem_of_cons in Hin as [Hin | Hin]; [discriminate|].
    by apply elem_of_nil in Hin. }
  pose proof (lifecycle_exclusion_checked_one_way (list byte) sample_default_boundary
                VersionEdit_new 3 100 (sample_file 5 9) (fd (sample_file 5 9))
                false "cf" [CallSetLogNumber 7] Hclear) as (Hfirst & _ & Hthird).
  split.
  - apply (Hfirst (DeleteFile 3 100 VersionEdit_new)); [auto | reflexivity].
  - intros ve1 Hdrop.
    destruct (Hthird ve1 (or_intror Hdrop)) as (Hm & Hn & _). by split.
Defined.

(** C3, as stated, fails: after [AddColumnFamily], [AddFile] does not abort,
    and the record holds both the column family name and a new file. *)
Lemma AddFile_after_AddColumnFamily_accepted :
  exists ve1 ve2 : VersionEdit (list byte),
    AddColumnFamily "cf" VersionEdit_new = Done ve1 /\
    AddFile 2 (sample_file 5 9) ve1 = Done ve2 /\
    AddFile 2 (sample_file 5 9) ve1 <> AssertionFailed /\
    IsColumnFamilyAdd ve2 = true /\
    column_family_name_ ve2 = Some "cf"%string /\
    new_files_ ve2 = [(2, sample_file 5 9)].
Proof.
  eexists _, _. split; [reflexivity|]. split; [reflexivity|].
  split; [discriminate|]. repeat split.
Qed.

Lemma DeleteFile_idempotent_witness :
  size (GetDeletedFiles (DeleteFile 3 100 (DeleteFile 3 100
          (VersionEdit_new (Aux := list byte))))) = 1%nat /\
  (calls sample_default_boundary sample_calls VersionEdit_new = Done sample_edit /\
   NoDup (elements (GetDeletedFiles sample_edit))).
Proof.
  pose proof (DeleteFile_idempotent (list byte) sample_default_boundary
                VersionEdit_new 3 100) as (_ & _ & Hsize & Hnodup).
  split; [exact Hsize|]. split; [reflexivity|].
  apply (Hnodup sample_calls). reflexivity.
Defined.

Lemma NumEntries_counts_additions_and_deletions_witness :
  (exists ve', AddFile 2 (sample_file 5 9) VersionEdit_new = Done ve' /\
               NumEntries ve' = 1%nat /\ GetNewFiles ve' = [(2, sample_file 5 9)]) /\
  NumEntries sample_edit = 2%nat.
Proof.
  pose proof (NumEntries_counts_additions_and_deletions (list byte)
                sample_default_boundary VersionEdit_new (sample_file 5 9) sample_calls)
    as (_ & Hadd & Hcount).
  split.
  - apply Hadd. discriminate.
  - rewrite (Hcount sample_edit).
    + vm_compute. reflexivity.
    + reflexivity.
    + intros Hin. repeat (apply elem_of_cons in Hin as [Hin | Hin]; [discriminate|]).
      by apply elem_of_nil in Hin.
Defined.

Lemma UpdateBoundaries_first_and_last_witness :
  let inputs := [([x61], mkBoundaryBase 7 [x01]);
                 ([x6d], mkBoundaryBase 3 [x02]);
                 ([x7a], mkBoundaryBase 5 [x03])] in
  let f := UpdateBoundaries_all sample_extractor inputs
             (FileMetaData_default sample_default_boundary) in
  smallest f = mkBoundary [x61] (mkBoundaryBase 7 [x01]) /\
  largest f = mkBoundary [x7a] (mkBoundaryBase 5 [x03]).
Proof.
  intros inputs f.
  destruct (UpdateBoundaries_first_and_last (list byte) sample_extractor
              (FileMetaData_default sample_default_boundary) inputs
              [x61] [x7a] (mkBoundaryBase 7 [x01]) (mkBoundaryBase 5 [x03]))
    as (Hs & Hl & _).
  - reflexivity.
  - repeat constructor; discriminate.
  - reflexivity.
  - reflexivity.
  - split; [exact Hs | exact Hl].
Defined.

Lemma encode_decode_round_trip_witness :
  exists bytes,
    (forall dst,
       AppendEncodedTo sample_user_values_bytes sample_edit dst = (true, dst ++ bytes)) /\
    DecodeFrom sample_default_boundary sample_extractor bytes =
      Decoded (recovered sample_default_boundary sample_edit).
Proof.
  apply (encode_decode_round_trip (list byte) sample_default_boundary sample_user_values_bytes
           sample_extractor (fun _ _ => eq_refl) sample_calls sample_edit).
  - repeat constructor; vm_compute; congruence.
  - reflexivity.
  - reflexivity.
Defined.

Lemma DecodeFrom_rejects_corrupt_input_witness :
  (forall bytes, AppendEncodedTo sample_user_values_bytes sample_edit [] = (true, bytes) ->
     DecodeFrom sample_default_boundary sample_extractor (removelast bytes) = Corruption) /\
  DecodeFrom sample_default_boundary sample_extractor
    (MessageCodec.SerializeToString sample_wide_message) = Corruption.
Proof.
  pose proof (DecodeFrom_rejects_corrupt_input (list byte) sample_default_boundary
                sample_user_values_bytes sample_extractor) as [Hcut Hcorrupt].
  split.
  - intros bytes Hbytes. apply (Hcut sample_edit bytes Hbytes).
  - apply Hcorrupt.
    apply (corrupt_identity_width _ _ _ sample_wide_message sample_wide_entry).
    + apply ParseFromArray_SerializeToString.
    + apply list_elem_of_here.
    + vm_compute. discriminate.
Defined.

(* ================================================================== *)
(** * Concrete runs of the further properties *)

Arguments CallClear {Aux}.
Arguments CallAddColumnFamily {Aux} name.
Arguments CallDropColumnFamily {Aux}.
Arguments CallSetColumnFamily {Aux} column_family_id.
Arguments comparator_ {Aux} v.
Arguments log_number_ {Aux} v.
Arguments next_file_number_ {Aux} v.
Arguments is_column_family_drop_ {Aux} v.
Arguments last_op_id {Aux} f.

Ltac no_clear :=
  let Hin := fresh "Hin" in
  intros Hin;
  repeat (apply elem_of_cons in Hin as [Hin | Hin]; [discriminate|]);
  by apply elem_of_nil in Hin.

(** The sample file as an idle copy: unreferenced, not open, not under
    compaction, without statistics. *)
Definition sample_idle_file (lo hi : SequenceNumber) : FileMetaData (list byte) :=
  {| refs := 0;
     fd := FileDescriptor_of 7 1 4096 1024;
     being_compacted := false;
     smallest := sample_boundary [x61] lo;
     largest := sample_boundary [x7a] hi;
     last_op_id := mkOpId 2 40;
     imported := true;
     table_reader_handle := nullptr;
     compensated_file_size := 0;
     num_entries := 0;
     num_deletions := 0;
     raw_key_size := 0;
     raw_value_size := 0;
     init_stats_from_file := false;
     marked_for_compaction := true |}.

Definition sample_setter_calls : list (mutation (list byte)) :=
  [CallSetLogNumber 1; CallSetNextFile 5; CallSetLogNumber 2; CallSetColumnFamily 3].

Lemma unpacking_loses_nothing_witness :
  let d := mkFileDescriptor (Some 4096%N) (2 ^ 64 - 1) 10 10 in
  is_uint64 (packed_number_and_path_id d) /\
  GetNumber d = 2 ^ 62 - 1 /\ GetPathId d = 3 /\
  packed_number_and_path_id d = GetPathId d * (kFileNumberMask + 1) + GetNumber d.
Proof.
  intros d.
  assert (is_uint64 (packed_number_and_path_id d)) as Hd
    by (unfold is_uint64; cbn; lia).
  split; [exact Hd|].
  destruct (unpacking_loses_nothing d Hd) as (_ & _ & Hpacked).
  split; [reflexivity|]. split; [reflexivity|]. exact Hpacked.
Defined.

Lemma number_and_path_determine_identity_witness :
  let d1 := mkFileDescriptor nullptr (3 * 2 ^ 62 + 100) 10 10 in
  let d2 := mkFileDescriptor (Some 4096%N) (2 ^ 64 - 2 ^ 62 + 100) 20 5 in
  GetNumber d1 = GetNumber d2 /\ GetPathId d1 = GetPathId d2 /\
  packed_number_and_path_id d1 = packed_number_and_path_id d2.
Proof.
  intros d1 d2. split; [reflexivity|]. split; [reflexivity|].
  apply (number_and_path_determine_identity d1 d2);
    try reflexivity; unfold is_uint64; cbn; lia.
Defined.

Lemma lifecycle_call_succeeds_exactly_on_pure_record_witness :
  (exists ve', AddColumnFamily "cf"%string (VersionEdit_new (Aux := list byte)) = Done ve') /\
  ~ (exists ve', DropColumnFamily (DeleteFile 3 100 (VersionEdit_new (Aux := list byte)))
                 = Done ve').
Proof.
  split.
  - apply (lifecycle_call_succeeds_exactly_on_pure_record (list byte) "cf"%string VersionEdit_new).
    repeat split.
  - intros H.
    apply (lifecycle_call_succeeds_exactly_on_pure_record (list byte) "cf"%string
             (DeleteFile 3 100 VersionEdit_new)) in H as (_ & _ & H).
    vm_compute in H. discriminate.
Defined.

Lemma lifecycle_fields_stay_exclusive_witness :
  exists ve' : VersionEdit (list byte),
    calls sample_default_boundary
      [CallAddColumnFamily "cf"%string; CallSetLogNumber 7; CallDeleteFile 3 100]
      VersionEdit_new = Done ve' /\
    ~ (IsColumnFamilyAdd ve' = true /\ is_column_family_drop_ ve' = true).
Proof.
  eexists. split; [reflexivity|].
  apply (lifecycle_fields_stay_exclusive (list byte) sample_default_boundary
           [CallAddColumnFamily "cf"%string; CallSetLogNumber 7; CallDeleteFile 3 100]
           VersionEdit_new).
  - no_clear.
  - intros [H _]. discriminate.
  - reflexivity.
Defined.

Lemma lifecycle_fields_are_write_once_witness :
  exists ve1 ve' : VersionEdit (list byte),
    AddColumnFamily "cf"%string VersionEdit_new = Done ve1 /\
    calls sample_default_boundary [CallSetLogNumber 7; CallDeleteFile 3 100] ve1 =
      Done ve' /\
    column_family_name_ ve' = Some "cf"%string.
Proof.
  eexists _, _. split; [reflexivity|]. split; [reflexivity|].
  eapply (lifecycle_fields_are_write_once (list byte) sample_default_boundary
            [CallSetLogNumber 7; CallDeleteFile 3 100]).
  - no_clear.
  - reflexivity.
  - reflexivity.
Defined.

Lemma added_files_have_ordered_boundaries_witness :
  calls sample_default_boundary sample_calls VersionEdit_new = Done sample_edit /\
  Forall (fun lf : Z * FileMetaData (list byte) =>
            seqno (smallest (snd lf)) <= seqno (largest (snd lf)))
         (GetNewFiles sample_edit).
Proof.
  split; [reflexivity|].
  apply (added_files_have_ordered_boundaries (list byte) sample_default_boundary
           sample_calls VersionEdit_new sample_edit).
  - no_clear.
  - constructor.
  - reflexivity.
Defined.

Lemma new_files_follow_call_order_witness :
  exists ve' : VersionEdit (list byte),
    calls sample_default_boundary
      [CallAddFile 2 (sample_file 5 9); CallDeleteFile 3 100;
       CallAddFile 1 (sample_idle_file 1 4); CallAddFile 2 (sample_file 5 9)]
      VersionEdit_new = Done ve' /\
    GetNewFiles ve' =
      [(2, sample_file 5 9); (1, sample_idle_file 1 4); (2, sample_file 5 9)].
Proof.
  eexists. split; [reflexivity|].
  apply (new_files_follow_call_order (list byte) sample_default_boundary
           [CallAddFile 2 (sample_file 5 9); CallDeleteFile 3 100;
            CallAddFile 1 (sample_idle_file 1 4); CallAddFile 2 (sample_file 5 9)]
           VersionEdit_new).
  - no_clear.
  - reflexivity.
Defined.

Lemma NumEntries_never_decreases_witness :
  calls sample_default_boundary sample_calls VersionEdit_new = Done sample_edit /\
  (NumEntries (VersionEdit_new (Aux := list byte)) <= NumEntries sample_edit)%nat.
Proof.
  split; [reflexivity|].
  apply (NumEntries_never_decreases (list byte) sample_default_boundary sample_calls).
  - no_clear.
  - reflexivity.
Defined.

Lemma DeleteFile_order_and_count_witness :
  NumEntries (DeleteFile 3 100 (DeleteFile 3 100 (VersionEdit_new (Aux := list byte)))) =
    NumEntries (DeleteFile 3 100 (VersionEdit_new (Aux := list byte))) /\
  NumEntries (DeleteFile 4 7 (DeleteFile 3 100 (VersionEdit_new (Aux := list byte)))) =
    S (NumEntries (DeleteFile 3 100 (VersionEdit_new (Aux := list byte)))).
Proof.
  pose proof (DeleteFile_order_and_count (list byte)
                (DeleteFile 3 100 VersionEdit_new) 3 100 4 7) as (_ & _ & _ & _ & Hold & _).
  pose proof (DeleteFile_order_and_count (list byte)
                (DeleteFile 3 100 VersionEdit_new) 4 7 3 100) as (_ & _ & _ & _ & _ & Hnew).
  split.
  - apply Hold. unfold GetDeletedFiles, DeleteFile; cbn [deleted_files_].
    apply elem_of_union_l. by apply elem_of_singleton.
  - apply Hnew. unfold GetDeletedFiles, DeleteFile; cbn [deleted_files_].
    intros Hin. apply elem_of_union in Hin as [Hin | Hin].
    + apply elem_of_singleton in Hin. discriminate.
    + unfold VersionEdit_new in Hin. cbn in Hin. by apply not_elem_of_empty in Hin.
Defined.

Lemma stored_clean_record_is_fixed_witness :
  exists (ve' : VersionEdit (list byte)) nf,
    AddCleanedFile sample_default_boundary 2 (sample_file 5 9) VersionEdit_new = Done ve' /\
    AddFile 2 nf VersionEdit_new = Done ve' /\
    AddCleanedFile sample_default_boundary 2 nf VersionEdit_new = Done ve'.
Proof.
  eexists _, _. split; [reflexivity|].
  apply (stored_clean_record_is_fixed (list byte) sample_default_boundary
           2 (sample_file 5 9) (fd (sample_file 5 9)) false VersionEdit_new).
  - left. reflexivity.
  - reflexivity.
Defined.

Lemma AddCleanedFile_reads_persistent_fields_only_witness :
  sample_file 5 9 <> sample_idle_file 5 9 /\
  AddCleanedFile sample_default_boundary 2 (sample_file 5 9) VersionEdit_new =
  AddCleanedFile sample_default_boundary 2 (sample_idle_file 5 9) VersionEdit_new.
Proof.
  split; [discriminate|].
  apply (AddCleanedFile_reads_persistent_fields_only (list byte) sample_default_boundary
           2 (sample_file 5 9) (sample_idle_file 5 9) VersionEdit_new);
    reflexivity.
Defined.

Lemma AddTestFile_stores_fresh_record_witness :
  exists (ve' : VersionEdit (list byte)) nf,
    AddTestFile sample_default_boundary 2 (fd (sample_file 5 9))
      (sample_boundary [x61] 5) (sample_boundary [x7a] 9) true VersionEdit_new = Done ve' /\
    GetNewFiles ve' = [(2, nf)] /\
    table_reader (fd nf) = nullptr /\
    last_op_id nf = mkOpId 1 9.
Proof.
  destruct (AddTestFile_stores_fresh_record (list byte) sample_default_boundary
              2 (fd (sample_file 5 9)) (sample_boundary [x61] 5)
              (sample_boundary [x7a] 9) true VersionEdit_new)
    as (ve' & nf & H1 & H2 & _ & H3 & _ & _ & _ & _ & _ & _ & Hterm & Hindex & _).
  - discriminate.
  - exists ve', nf. split; [exact H1|]. split; [exact H2|]. split; [exact H3|].
    destruct (last_op_id nf) as [t i]; cbn in *.
    rewrite Hterm, Hindex by lia. reflexivity.
Defined.

Lemma setters_last_write_wins_witness :
  exists ve' : VersionEdit (list byte),
    calls sample_default_boundary sample_setter_calls VersionEdit_new = Done ve' /\
    log_number_ ve' = Some 2 /\ next_file_number_ ve' = Some 5 /\
    comparator_ ve' = None.
Proof.
  eexists. split; [reflexivity|].
  assert (CallClear ∉ sample_setter_calls) as Hclear by no_clear.
  destruct (setters_last_write_wins (list byte) sample_default_boundary
              sample_setter_calls VersionEdit_new _ Hclear eq_refl)
    as (Hc & Hl & _ & Hn & _).
  split; [exact Hl|]. split; [exact Hn | exact Hc].
Defined.

Lemma setters_leave_entries_and_lifecycle_witness :
  exists ve' : VersionEdit (list byte),
    calls sample_default_boundary sample_setter_calls
      (DeleteFile 3 100 VersionEdit_new) = Done ve' /\
    GetDeletedFiles ve' =
      GetDeletedFiles (DeleteFile 3 100 (VersionEdit_new (Aux := list byte))) /\
    GetNewFiles ve' = [].
Proof.
  destruct (setters_leave_entries_and_lifecycle (list byte) sample_default_boundary
              sample_setter_calls (DeleteFile 3 100 VersionEdit_new))
    as (ve' & Hcalls & Hnew & Hdel & _).
  - repeat constructor.
  - exists ve'. split; [exact Hcalls|]. split; [exact Hdel | exact Hnew].
Defined.

Lemma run_without_violation_never_aborts_witness :
  exists ve' : VersionEdit (list byte),
    calls sample_default_boundary
      [CallAddFile 2 (sample_file 5 9); CallDeleteFile 3 100; CallSetLogNumber 1;
       CallAddCleanedFile 1 (sample_idle_file 1 4)]
      VersionEdit_new = Done ve'.
Proof.
  apply (run_without_violation_never_aborts (list byte) sample_default_boundary).
  repeat constructor; discriminate.
Defined.
